(** * Anagram-Solver: the letter-multiset core of [angsolver.py]

    A shallow embedding of [subtract_letters], [is_valid_anagram],
    [find_anagrams] and [generate_sentence], and the properties of the
    specification settled against it.

    Modelling conventions.
    - A Python [str] is a [string]; its characters are 8-bit [ascii] codes and
      case mapping acts on the ASCII letters (the text is taken to be ASCII).
    - A [Counter] holding a letter pool is a finite map [gmap ascii Z] (Python
      integers are unbounded); reading a missing key gives [0] and inserts
      nothing, as [Counter.__missing__] does.
    - [Counter(word)] is iterated in insertion order, that is in order of
      first occurrence of each character: [Counter_keys].
    - [raise ValueError(...)] is the [Raise] constructor of [result]. *)

From Stdlib Require Import ZArith Ascii String List.
From stdpp Require Import gmap strings list fin_maps sorting.

Open Scope Z_scope.

(** ** Python primitives *)

Module Py.

Abbreviation counter := (gmap ascii Z).

(** The outcome of a call that may raise [ValueError]; the payload of
    [Raise] is the message of the exception. *)
Inductive result (A : Type) : Type :=
| Ok (a : A)
| Raise (msg : string).
Arguments Ok {A} a.
Arguments Raise {A} msg.

#[global] Instance result_ret : MRet result := λ A a, Ok a.
#[global] Instance result_bind : MBind result := λ A B k r,
  match r with
  | Ok a => k a
  | Raise msg => Raise msg
  end.

(** [for x in xs: acc = body(acc, x)], stopping at the first exception. *)
Fixpoint for_each {A S} (body : S → A → result S) (acc : S) (xs : list A)
  : result S :=
  match xs with
  | [] => Ok acc
  | x :: xs' => acc' ← body acc x; for_each body acc' xs'
  end.

Definition chars (s : string) : list ascii := list_ascii_of_string s.

(** [len(s)] *)
Definition len (s : string) : Z := Z.of_nat (String.length s).

(** [c.lower()] and [c.upper()] on one character. *)
Definition lower_char (c : ascii) : ascii :=
  let n := N_of_ascii c in
  if ((65 <=? n) && (n <=? 90))%N then ascii_of_N (n + 32) else c.

Definition upper_char (c : ascii) : ascii :=
  let n := N_of_ascii c in
  if ((97 <=? n) && (n <=? 122))%N then ascii_of_N (n - 32) else c.

(** [s.lower()] *)
Fixpoint lower (s : string) : string :=
  match s with
  | EmptyString => EmptyString
  | String c s' => String (lower_char c) (lower s')
  end.

(** [s.replace(" ", "")] *)
Fixpoint remove_spaces (s : string) : string :=
  match s with
  | EmptyString => EmptyString
  | String c s' =>
      if Ascii.eqb c " " then remove_spaces s' else String c (remove_spaces s')
  end.

(** [s.capitalize()]: first character upper-cased, the rest lower-cased. *)
Definition capitalize (s : string) : string :=
  match s with
  | EmptyString => EmptyString
  | String c s' => String (upper_char c) (lower s')
  end.

(** [sep.join(ws)] *)
Fixpoint join (sep : string) (ws : list string) : string :=
  match ws with
  | [] => EmptyString
  | [w] => w
  | w :: ws' => w ++ sep ++ join sep ws'
  end.

(** [m[c]] on a [Counter], and [m.get(c, 0)] on any dict: a missing key
    reads as [0]. *)
Definition get (m : counter) (c : ascii) : Z := default 0 (m !! c).

(** [Counter(s)]: one pass over [s], [m[c] = m.get(c, 0) + 1]. *)
Definition Counter_of_list (l : list ascii) : counter :=
  foldl (λ m c, <[c := get m c + 1]> m) ∅ l.

Definition Counter (s : string) : counter := Counter_of_list (chars s).

(** The keys of [Counter(s)] in iteration (first-occurrence) order. *)
Fixpoint distinct (l : list ascii) : list ascii :=
  match l with
  | [] => []
  | c :: l' => c :: filter (λ d, d ≠ c) (distinct l')
  end.

Definition Counter_keys (s : string) : list ascii := distinct (chars s).

(** [sum(m.values())] *)
Definition sum_values (m : counter) : Z :=
  map_fold (λ _ v acc, acc + v) 0 m.

(** [sorted(l, ...)]: a stable sort; [le x y] says that the key of [x] does
    not come after the key of [y].  Stability fixes the result, whatever
    the algorithm: here, insertion from the right. *)
Section Sorted.
Context {A : Type} (le : A → A → bool).

Fixpoint insert_sorted (x : A) (l : list A) : list A :=
  match l with
  | [] => [x]
  | y :: l' => if le x y then x :: l else y :: insert_sorted x l'
  end.

Definition sorted (l : list A) : list A := foldr insert_sorted [] l.
End Sorted.

End Py.

Import Py.

(** ** The program *)

(** [f"Word '{word}' uses more '{char}' than available"] *)
Definition insufficient_letters (word : string) (char : ascii) : string :=
  ("Word '" ++ word ++ "' uses more '" ++ String char "' than available")%string.

(** One iteration of the loop of [subtract_letters] on the copy
    [remaining]. *)
Definition subtract_step (word : string) (word_count : counter)
    (remaining : counter) (char : ascii) : result counter :=
  if bool_decide (is_Some (remaining !! char)) then
    let remaining := <[char := get remaining char - get word_count char]> remaining in
    let remaining :=
      if get remaining char <=? 0 then delete char remaining else remaining in
    if get remaining char <? 0
    then Raise (insufficient_letters word char)
    else Ok remaining
  else Ok remaining.

Definition subtract_letters (letter_count : counter) (word : string)
  : result counter :=
  let word_count := Counter (lower word) in
  let remaining := letter_count in
  for_each (subtract_step word word_count) remaining (Counter_keys (lower word)).

Definition is_valid_anagram (letters_count : counter) (word : string) : bool :=
  let word_count := Counter word in
  forallb (λ char, get word_count char <=? get letters_count char)
          (Counter_keys word).

(** The [for word in exclude_words] loop of [find_anagrams] with its
    [try]/[except]: [inl] is the early [return [], letters_count] of the
    handler, carrying the multiset as it stood before the failing call. *)
Fixpoint exclude_loop (letters_count : counter) (exclude_words : list string)
  : counter + counter :=
  match exclude_words with
  | [] => inr letters_count
  | word :: rest =>
      match subtract_letters letters_count word with
      | Ok remaining => exclude_loop remaining rest
      | Raise _ => inl letters_count
      end
  end.

(** [(-len(x), x) <= (-len(y), y)], tuples compared lexicographically. *)
Definition anagram_key_le (x y : string) : bool :=
  (- len x <? - len y) || ((- len x =? - len y) && String.leb x y).

(** The test of the matching loop, lines 58-60. *)
Definition accepts (letters_count : counter) (min_length : Z) (word : string)
  : bool :=
  (len word <=? sum_values letters_count)
  && (min_length <=? len word)
  && is_valid_anagram letters_count word.

Definition find_anagrams (letters : string) (word_list : list string)
    (min_length : Z) (exclude_words : option (list string))
  : list string * counter :=
  let letters := lower (remove_spaces letters) in
  let letters_count := Counter letters in
  let excluded :=
    match exclude_words with
    | None | Some [] => inr letters_count
    | Some exclude_words => exclude_loop letters_count exclude_words
    end in
  match excluded with
  | inl letters_count => ([], letters_count)
  | inr letters_count =>
      let anagrams :=
        filter (λ word, Is_true (accepts letters_count min_length word))
               word_list in
      (sorted anagram_key_le anagrams, letters_count)
  end.

(** [sorted(anagrams, key=len, reverse=True)]: longest first, words of equal
    length in their original order. *)
Definition length_desc (x y : string) : bool := len y <=? len x.

(** The nested [find_full_match]; the inner [loop] is its [for] over
    [enumerate(words)], whose recursive call receives [words[i+1:]]. *)
Fixpoint find_full_match (words current_words : list string)
    (remaining : counter) {struct words} : result (option (list string)) :=
  if bool_decide (remaining = ∅) && bool_decide (current_words ≠ [])
  then Ok (Some current_words)
  else
    match words with
    | [] => Ok None
    | _ =>
        (fix loop (ws : list string) : result (option (list string)) :=
           match ws with
           | [] => Ok None
           | word :: rest =>
               let word_count := Counter word in
               if forallb (λ c, get word_count c <=? get remaining c)
                          (Counter_keys word)
               then
                 new_remaining ← subtract_letters remaining word;
                 result ← find_full_match rest (current_words ++ [word])
                                          new_remaining;
                 match result with
                 | Some (_ :: _) => Ok result
                 | _ => loop rest
                 end
               else loop rest
           end) words
    end.

(** [used_letters.update(word_count)] *)
Definition counter_update (used_letters : counter) (word : string) : counter :=
  let word_count := Counter word in
  foldl (λ m c, <[c := get word_count c + get m c]> m) used_letters
        (Counter_keys word).

(** The [for word in available_words] loop of the partial mode, lines
    98-105. *)
Fixpoint partial_loop (remaining_letters : counter)
    (available_words sentence_words : list string) (used_letters : counter)
  : list string :=
  match available_words with
  | [] => sentence_words
  | word :: rest =>
      let word_count := Counter word in
      let '(sentence_words, used_letters) :=
        if forallb (λ char, get used_letters char + get word_count char
                              <=? get remaining_letters char)
                   (Counter_keys word)
        then (sentence_words ++ [word], counter_update used_letters word)
        else (sentence_words, used_letters) in
      if (3 <=? length sentence_words)%nat
      then sentence_words
      else partial_loop remaining_letters rest sentence_words used_letters
  end.

(** Lines 107-116: the text of the sentence. *)
Definition construct_sentence (sentence_words : list string) : string :=
  match sentence_words with
  | [] => "No sentence possible."
  | [w] => capitalize w ++ "."
  | [w1; w2] => capitalize w1 ++ " " ++ w2 ++ "."
  | w :: ws => capitalize w ++ " " ++ join " " ws ++ "."
  end.

Definition generate_sentence (anagrams : list string)
    (remaining_letters : counter) (full_match : bool) : result string :=
  match anagrams with
  | [] => Ok "No sentence possible."%string
  | _ =>
      let available_words := sorted length_desc anagrams in
      if full_match then
        let target_count := remaining_letters in
        result ← find_full_match available_words [] target_count;
        match result with
        | Some ((_ :: _) as sentence_words) =>
            Ok (construct_sentence sentence_words)
        | _ => Ok "No full-match sentence possible."%string
        end
      else
        Ok (construct_sentence
              (partial_loop remaining_letters available_words [] ∅))
  end.

(** ** The same two functions on a store of objects

    [subtract_letters] copies its argument and mutates the copy;
    [is_valid_anagram] only reads.  To state what the caller can observe of
    its own [Counter], the objects live in a store indexed by identities and
    every read and write of the source goes through the store. *)

Module Store.

Definition loc := nat.
Abbreviation store := (gmap loc counter).

(** A computation on the store that may raise. *)
Definition M (A : Type) : Type := store → result A * store.

#[global] Instance M_ret : MRet M := λ A a σ, (Ok a, σ).
#[global] Instance M_bind : MBind M := λ A B k m σ,
  match m σ with
  | (Ok a, σ') => k a σ'
  | (Raise msg, σ') => (Raise msg, σ')
  end.

Definition raise {A} (msg : string) : M A := λ σ, (Raise msg, σ).

Definition object (σ : store) (l : loc) : counter := default ∅ (σ !! l).

(** [l.copy()]: a new object with the same entries. *)
Definition copy (l : loc) : M loc := λ σ,
  let l' := fresh (dom σ) in (Ok l', <[l' := object σ l]> σ).

(** [c in l] *)
Definition contains (l : loc) (c : ascii) : M bool := λ σ,
  (Ok (bool_decide (is_Some (object σ l !! c))), σ).

(** [l[c]] and [l.get(c, 0)] *)
Definition getitem (l : loc) (c : ascii) : M Z := λ σ,
  (Ok (get (object σ l) c), σ).

(** [l[c] = v] *)
Definition setitem (l : loc) (c : ascii) (v : Z) : M unit := λ σ,
  (Ok (), <[l := <[c := v]> (object σ l)]> σ).

(** [del l[c]] *)
Definition delitem (l : loc) (c : ascii) : M unit := λ σ,
  (Ok (), <[l := delete c (object σ l)]> σ).

(** [for x in xs: body(x)] *)
Fixpoint for_ {A} (xs : list A) (body : A → M unit) : M unit :=
  match xs with
  | [] => mret ()
  | x :: xs' => _ ← body x; for_ xs' body
  end.

(** [all(test(x) for x in xs)], stopping at the first [False]. *)
Fixpoint all_ {A} (xs : list A) (test : A → M bool) : M bool :=
  match xs with
  | [] => mret true
  | x :: xs' => b ← test x; if b : bool then all_ xs' test else mret false
  end.

Definition subtract_body (word : string) (word_count : counter)
    (remaining : loc) (char : ascii) : M unit :=
  present ← contains remaining char;
  if present : bool then
    v ← getitem remaining char;
    _ ← setitem remaining char (v - get word_count char);
    v ← getitem remaining char;
    _ ← (if v <=? 0 then delitem remaining char else mret ());
    v ← getitem remaining char;
    if v <? 0 then raise (insufficient_letters word char) else mret ()
  else mret ().

Definition subtract_letters (letter_count : loc) (word : string) : M loc :=
  let word_count := Counter (lower word) in
  remaining ← copy letter_count;
  _ ← for_ (Counter_keys (lower word))
           (subtract_body word word_count remaining);
  mret remaining.

Definition is_valid_anagram (letters_count : loc) (word : string) : M bool :=
  let word_count := Counter word in
  all_ (Counter_keys word)
       (λ char, v ← getitem letters_count char;
                mret (get word_count char <=? v)).

End Store.

(** ** Notions used to state the properties *)

(** The number of occurrences of a character: "the word's count of that
    character". *)
Fixpoint occ (c : ascii) (l : list ascii) : Z :=
  match l with
  | [] => 0
  | d :: l' => (if decide (d = c) then 1 else 0) + occ c l'
  end.

(** The entry of the copy for a key the loop visits, after the visit: the
    count is lowered, and the entry is deleted when it is not positive. *)
Definition lowered (word_count : counter) (c : ascii) (v : Z) : option Z :=
  if 0 <? v - get word_count c then Some (v - get word_count c) else None.

(** The multiset [subtract_letters] returns, in closed form: keys of the
    case-folded word are lowered by the word's count and dropped when the
    count is not positive; every other entry of the base is kept as it is. *)
Definition subtracted (letter_count : counter) (word : string) : counter :=
  map_imap (λ c v, if decide (c ∈ chars (lower word))
                   then lowered (Counter (lower word)) c v
                   else Some v) letter_count.

(** The data model's multiset: counts are strictly positive (entries with
    count [0] are absent) ... *)
Definition positive_counts (m : counter) : Prop :=
  ∀ c v, m !! c = Some v → 0 < v.

(** ... and keys are case-folded characters. *)
Definition lowercase_keys (m : counter) : Prop :=
  ∀ c, is_Some (m !! c) → lower_char c = c.

(** [sum(f(c) for c in keys)] *)
Definition sum_over (f : ascii → Z) (keys : list ascii) : Z :=
  foldr (λ c acc, f c + acc) 0 keys.

(** The letters of "cat". *)
Definition cat_letters : counter :=
  <["a"%char := 1]> (<["c"%char := 1]> {["t"%char := 1]}).

(** The order of the output in the words of the specification: a longer word
    comes first, and of two words of equal length the lexicographically
    smaller one. *)
Definition anagram_order (x y : string) : Prop :=
  len y < len x ∨ (len x = len y ∧ String.le x y).

(** The [for] loop of [find_full_match], named. *)
Fixpoint find_loop (current_words : list string) (remaining : counter)
    (ws : list string) : result (option (list string)) :=
  match ws with
  | [] => Ok None
  | word :: rest =>
      if is_valid_anagram remaining word
      then
        new_remaining ← subtract_letters remaining word;
        result ← find_full_match rest (current_words ++ [word]) new_remaining;
        match result with
        | Some (_ :: _) => Ok result
        | _ => find_loop current_words remaining rest
        end
      else find_loop current_words remaining rest
  end.

(** The letters of a sequence of words, with multiplicity. *)
Fixpoint all_chars (ws : list string) : list ascii :=
  match ws with
  | [] => []
  | w :: ws' => chars w ++ all_chars ws'
  end.

(** The words [ws], taken in turn, drive the residual multiset to zero: each
    is covered by the residual, is subtracted from it, and nothing is left
    at the end. *)
Fixpoint drives_to_zero (remaining : counter) (ws : list string) : bool :=
  match ws with
  | [] => bool_decide (remaining = ∅)
  | w :: ws' =>
      is_valid_anagram remaining w
      && match subtract_letters remaining w with
         | Ok residual => drives_to_zero residual ws'
         | Raise _ => false
         end
  end.

(** The acceptance test in the words of the specification: for every
    character of the word, what is used already plus what the word needs is
    within what remains.  The used multiset is given by the letters of the
    words accepted so far. *)
Definition fits (remaining : counter) (used : list ascii) (w : string) : Prop :=
  Forall (λ c, occ c used + occ c (chars w) ≤ get remaining c) (chars w).

#[global] Instance fits_dec remaining used w : Decision (fits remaining used w).
Proof. unfold fits. apply _. Defined.

(** The greedy scan of the specification: accept a word when it fits, add its
    letters to the used ones, and stop when [budget] words are accepted or
    the candidates are exhausted. *)
Fixpoint greedy_scan (remaining : counter) (budget : nat) (used : list ascii)
    (candidates : list string) : list string :=
  match candidates with
  | [] => []
  | w :: rest =>
      match budget with
      | O => []
      | S budget' =>
          if decide (fits remaining used w)
          then w :: greedy_scan remaining budget' (used ++ chars w) rest
          else greedy_scan remaining budget used rest
      end
  end.

(** The matching loop of [find_anagrams] with the sort of its result, lines
    56-63, for the multiset [letters_count] it is run against. *)
Definition matching_loop (letters_count : counter) (word_list : list string)
    (min_length : Z) : list string :=
  let anagrams :=
    filter (λ word, Is_true (accepts letters_count min_length word))
           word_list in
  sorted anagram_key_le anagrams.

(** ** Loading the word list *)

(** [c.isspace()] on the ASCII range: tab to carriage return, the four
    separators 28-31, and the space. *)
Definition is_space (c : ascii) : bool :=
  let n := N_of_ascii c in
  (((9 <=? n) && (n <=? 13)) || ((28 <=? n) && (n <=? 32)))%N.

(** [s.lstrip()] on the characters of [s]. *)
Fixpoint lstrip_chars (l : list ascii) : list ascii :=
  match l with
  | [] => []
  | c :: l' => if is_space c then lstrip_chars l' else l
  end.

(** [s.strip()]: white space removed at both ends. *)
Definition strip (s : string) : string :=
  string_of_list_ascii
    (reverse (lstrip_chars (reverse (lstrip_chars (chars s))))).

(** What a call leaves behind: a returned value, or the text printed before
    [exit(status)]. *)
Inductive outcome (A : Type) : Type :=
| Returns (a : A)
| Exits (printed : string) (status : Z).
Arguments Returns {A} a.
Arguments Exits {A} printed status.

(** [load_word_list]: [open_file] gives the lines of a file, or [None] when
    [open] raises [FileNotFoundError]; the result is a Python [set]. *)
Definition load_word_list (open_file : string → option (list string))
    (filename : string) : outcome (gset string) :=
  match open_file filename with
  | Some file =>
      Returns (list_to_set ((λ word, lower (strip word)) <$> file))
  | None =>
      Exits ("Error: Word list file '" ++ filename ++ "' nor found.") 1
  end.

(** A string without white space at either end. *)
Definition stripped (s : string) : Prop :=
  match chars s with
  | [] => True
  | c :: _ => is_space c = false
  end
  ∧ match reverse (chars s) with
    | [] => True
    | c :: _ => is_space c = false
    end.

(** The first character upper-cased, the rest as it is. *)
Definition upper_first (s : string) : string :=
  match s with
  | EmptyString => EmptyString
  | String c s' => String (upper_char c) s'
  end.

(** ** Facts about the Python primitives *)

Section CounterFacts.
Implicit Types (m : counter) (c d : ascii) (l : list ascii).

Lemma get_Some m c v : m !! c = Some v → get m c = v.
Proof. unfold get. by intros ->. Qed.

Lemma get_None m c : m !! c = None → get m c = 0.
Proof. unfold get. by intros ->. Qed.

Lemma get_empty c : get ∅ c = 0.
Proof. apply get_None, lookup_empty. Qed.

Lemma occ_nonneg c l : 0 ≤ occ c l.
Proof. induction l as [|d l IH]; simpl; [lia | case_decide; lia]. Qed.

Lemma occ_pos c l : c ∈ l ↔ 0 < occ c l.
Proof.
  induction l as [|d l IH]; cbn [occ].
  - split; [by intros ?%elem_of_nil | lia].
  - rewrite elem_of_cons, IH. pose proof (occ_nonneg c l).
    destruct (decide (d = c)) as [->|Hne]; split.
    + lia.
    + by left.
    + intros [->|?]; [done | lia].
    + intros. right. lia.
Qed.

Lemma occ_zero c l : c ∉ l ↔ occ c l = 0.
Proof. rewrite occ_pos. pose proof (occ_nonneg c l). lia. Qed.

Lemma occ_app c l1 l2 : occ c (l1 ++ l2) = occ c l1 + occ c l2.
Proof. induction l1 as [|d l1 IH]; simpl; [done | rewrite IH; lia]. Qed.

(** The counting pass started from any map. *)
Lemma Counter_fold_lookup l m c :
  foldl (λ m c, <[c := get m c + 1]> m) m l !! c
  = if decide (c ∈ l) then Some (get m c + occ c l) else m !! c.
Proof.
  revert m. induction l as [|d l IH]; intros m; cbn [foldl occ].
  - rewrite decide_False; [done | apply not_elem_of_nil].
  - rewrite IH. destruct (decide (d = c)) as [->|Hne].
    + rewrite (decide_True (P := c ∈ c :: l)) by left.
      case_decide as Hin.
      * f_equal. rewrite (get_Some _ _ _ (lookup_insert_eq _ _ _)). lia.
      * rewrite lookup_insert_eq. f_equal.
        apply occ_zero in Hin. lia.
    + assert (get (<[d:=get m d + 1]> m) c = get m c) as ->.
      { unfold get. by rewrite lookup_insert_ne. }
      rewrite lookup_insert_ne by done.
      destruct (decide (c ∈ l)) as [Hin|Hin].
      * rewrite decide_True by (by right). f_equal; lia.
      * rewrite decide_False; [done|].
        intros [->|?]%elem_of_cons; done.
Qed.

Lemma Counter_of_list_lookup l c :
  Counter_of_list l !! c = if decide (c ∈ l) then Some (occ c l) else None.
Proof.
  unfold Counter_of_list. rewrite Counter_fold_lookup, get_empty, lookup_empty.
  case_decide; [f_equal; lia | done].
Qed.

Lemma get_Counter_of_list l c : get (Counter_of_list l) c = occ c l.
Proof.
  unfold get. rewrite Counter_of_list_lookup.
  case_decide as Hin; [done|]. apply occ_zero in Hin. simpl; lia.
Qed.

Lemma elem_of_distinct l c : c ∈ distinct l ↔ c ∈ l.
Proof.
  induction l as [|d l IH]; cbn [distinct]; [done|].
  rewrite !elem_of_cons, list_elem_of_filter, IH.
  destruct (decide (c = d)) as [->|Hne]; split; auto.
  - intros [?|[_ ?]]; auto.
  - intros [?|?]; [done | auto].
Qed.

Lemma NoDup_distinct l : NoDup (distinct l).
Proof.
  induction l as [|d l IH]; cbn [distinct]; [constructor|].
  constructor.
  - rewrite list_elem_of_filter. intros [Hne _]. by apply Hne.
  - by apply NoDup_filter.
Qed.

End CounterFacts.

Section SumValues.
Implicit Types (m : counter) (c : ascii) (v : Z).

Lemma sum_values_empty : sum_values ∅ = 0.
Proof. apply map_fold_empty. Qed.

Lemma sum_values_insert_fresh m c v :
  m !! c = None → sum_values (<[c:=v]> m) = sum_values m + v.
Proof.
  intros Hc. unfold sum_values.
  rewrite map_fold_insert_L; [done | intros; lia | done].
Qed.

Lemma sum_values_delete m c v :
  m !! c = Some v → sum_values (delete c m) = sum_values m - v.
Proof.
  intros Hc. unfold sum_values.
  rewrite (map_fold_delete_L _ _ c v m); [lia | intros; lia | done].
Qed.

Lemma sum_values_insert m c v w :
  m !! c = Some w → sum_values (<[c:=v]> m) = sum_values m - w + v.
Proof.
  intros Hc. rewrite <-insert_delete_eq.
  rewrite sum_values_insert_fresh by apply lookup_delete_eq.
  by rewrite (sum_values_delete _ _ w).
Qed.
End SumValues.

(** ** [subtract_letters]: what the loop computes *)

Section SubtractLoop.
Variables (word : string) (word_count : counter).

(** One iteration never reaches the [raise]: the entry that is not positive
    has just been deleted, and the deleted key reads as [0]. *)
Lemma subtract_step_ok (remaining : counter) (c : ascii) :
  subtract_step word word_count remaining c
  = Ok (match remaining !! c with
        | Some v =>
            if 0 <? v - get word_count c
            then <[c := v - get word_count c]> remaining
            else delete c remaining
        | None => remaining
        end).
Proof.
  unfold subtract_step.
  destruct (remaining !! c) as [v|] eqn:Hc.
  - rewrite bool_decide_eq_true_2 by eauto.
    rewrite (get_Some _ _ _ Hc).
    rewrite (get_Some _ _ _ (lookup_insert_eq _ _ _)).
    destruct (Z.leb_spec (v - get word_count c) 0) as [Hle|Hgt].
    + rewrite (get_None _ _ (lookup_delete_eq _ _)). simpl.
      rewrite delete_insert_eq.
      destruct (Z.ltb_spec 0 (v - get word_count c)); [lia | done].
    + rewrite (get_Some _ _ _ (lookup_insert_eq _ _ _)).
      destruct (Z.ltb_spec (v - get word_count c) 0); [lia|].
      destruct (Z.ltb_spec 0 (v - get word_count c)); [done | lia].
  - rewrite bool_decide_eq_false_2; [done|].
    intros [? ?]; congruence.
Qed.

Lemma subtract_step_lookup (remaining remaining' : counter) (c d : ascii) :
  subtract_step word word_count remaining c = Ok remaining' →
  remaining' !! d
  = if decide (d = c) then remaining !! c ≫= lowered word_count c
    else remaining !! d.
Proof.
  rewrite subtract_step_ok. intros [= <-]. unfold lowered.
  destruct (decide (d = c)) as [->|Hne].
  - destruct (remaining !! c) as [v|] eqn:Hc; simpl; [|done].
    destruct (0 <? v - get word_count c).
    + apply lookup_insert_eq.
    + apply lookup_delete_eq.
  - destruct (remaining !! c) as [v|]; [|done].
    destruct (0 <? v - get word_count c).
    + by rewrite lookup_insert_ne.
    + by rewrite lookup_delete_ne.
Qed.

(** The whole loop over keys without repetition. *)
Lemma subtract_loop_ok (keys : list ascii) (remaining : counter) :
  NoDup keys →
  ∃ remaining',
    for_each (subtract_step word word_count) remaining keys = Ok remaining'
    ∧ ∀ d, remaining' !! d
           = if decide (d ∈ keys)
             then remaining !! d ≫= lowered word_count d
             else remaining !! d.
Proof.
  intros Hnd. revert remaining.
  induction Hnd as [|c keys Hc Hnd IH]; intros remaining.
  - exists remaining. split; [done|]. intros d.
    rewrite decide_False; [done | apply not_elem_of_nil].
  - cbn [for_each].
    destruct (subtract_step word word_count remaining c) as [r1|msg] eqn:Hstep;
      [|by rewrite subtract_step_ok in Hstep].
    destruct (IH r1) as (r2 & Hloop & Hr2).
    exists r2. split; [done|]. intros d. rewrite Hr2.
    rewrite !(subtract_step_lookup _ _ _ _ Hstep).
    destruct (decide (d = c)) as [->|Hne].
    + rewrite (decide_False (P := c ∈ keys)) by done.
      by rewrite (decide_True (P := c ∈ c :: keys)) by left.
    + destruct (decide (d ∈ keys)) as [Hin|Hin].
      * by rewrite decide_True by (by right).
      * rewrite decide_False; [done|].
        by intros [?|?]%elem_of_cons.
Qed.
End SubtractLoop.

Lemma subtract_letters_eq (letter_count : counter) (word : string) :
  subtract_letters letter_count word = Ok (subtracted letter_count word).
Proof.
  unfold subtract_letters.
  destruct (subtract_loop_ok word (Counter (lower word))
              (Counter_keys (lower word)) letter_count) as (r & -> & Hr).
  { apply NoDup_distinct. }
  f_equal. apply map_eq. intros d.
  unfold subtracted. rewrite map_lookup_imap, Hr.
  unfold Counter_keys.
  destruct (decide (d ∈ distinct (chars (lower word)))) as [Hin|Hin];
    rewrite elem_of_distinct in Hin; destruct (letter_count !! d); simpl;
    try done.
  - by rewrite decide_True.
  - by rewrite decide_False.
Qed.

(** ** Strings and case folding *)

Section StringFacts.
Implicit Types (s : string) (c : ascii).

Lemma length_chars s : length (chars s) = String.length s.
Proof. induction s as [|c s IH]; simpl; [done | by rewrite IH]. Qed.

Lemma len_chars s : len s = Z.of_nat (length (chars s)).
Proof. unfold len. by rewrite length_chars. Qed.

Lemma chars_lower s : chars (lower s) = lower_char <$> chars s.
Proof.
  unfold chars. induction s as [|c s IH]; [done|].
  cbn [lower list_ascii_of_string]. rewrite fmap_cons. by f_equal.
Qed.

Lemma lower_char_idemp c : lower_char (lower_char c) = lower_char c.
Proof. destruct c as [[] [] [] [] [] [] [] []]; reflexivity. Qed.

Lemma lower_fixed s :
  (∀ c, c ∈ chars s → lower_char c = c) → lower s = s.
Proof.
  induction s as [|c s IH]; simpl; intros Hfix; [done|].
  rewrite Hfix by left. f_equal. apply IH. intros d Hd.
  apply Hfix. by right.
Qed.

Lemma lower_chars_fixed s c : c ∈ chars (lower s) → lower_char c = c.
Proof.
  rewrite chars_lower. intros (d & -> & _)%list_elem_of_fmap.
  apply lower_char_idemp.
Qed.

Lemma Counter_positive s : positive_counts (Counter s).
Proof.
  intros c v. unfold Counter. rewrite Counter_of_list_lookup.
  case_decide as Hin; [|done]. intros [= <-]. by apply occ_pos.
Qed.
End StringFacts.

(** [is_valid_anagram] compares the counts of the characters of the word as
    they are written. *)
Lemma is_valid_anagram_iff (letters_count : counter) (word : string) :
  is_valid_anagram letters_count word = true
  ↔ ∀ c, c ∈ chars word → occ c (chars word) ≤ get letters_count c.
Proof.
  unfold is_valid_anagram, Counter_keys, Counter.
  rewrite forallb_forall. split.
  - intros H c Hc. specialize (H c).
    rewrite get_Counter_of_list in H. apply Z.leb_le, H.
    rewrite <-list_elem_of_In, elem_of_distinct. done.
  - intros H c Hc. rewrite <-list_elem_of_In, elem_of_distinct in Hc.
    rewrite get_Counter_of_list. by apply Z.leb_le, H.
Qed.

(** ** The total count under subtraction *)

Section TotalCount.
Implicit Types (l keys : list ascii) (c d : ascii).

Lemma sum_over_cons f c keys : sum_over f (c :: keys) = f c + sum_over f keys.
Proof. reflexivity. Qed.

Lemma sum_over_ext f g keys :
  (∀ c, c ∈ keys → f c = g c) → sum_over f keys = sum_over g keys.
Proof.
  induction keys as [|c keys IH]; intros Hfg; [done|].
  rewrite !sum_over_cons, Hfg by left.
  rewrite IH; [done|]. intros d Hd. apply Hfg. by right.
Qed.

Lemma sum_over_filter_ne f d keys :
  NoDup keys →
  sum_over f keys
  = sum_over f (filter (λ c, c ≠ d) keys)
    + (if decide (d ∈ keys) then f d else 0).
Proof.
  induction 1 as [|c keys Hc Hnd IH]; [done|].
  rewrite sum_over_cons, IH, filter_cons.
  destruct (decide (c = d)) as [->|Hne].
  - rewrite (decide_False (P := d ≠ d)) by tauto.
    rewrite (decide_False (P := d ∈ keys)) by done.
    rewrite (decide_True (P := d ∈ d :: keys)) by left. lia.
  - rewrite (decide_True (P := c ≠ d)) by done.
    rewrite sum_over_cons.
    destruct (decide (d ∈ keys)) as [Hin|Hin].
    + rewrite decide_True by (by right). lia.
    + rewrite decide_False; [lia|].
      intros [?|?]%elem_of_cons; congruence.
Qed.

Lemma occ_cons_eq c l : occ c (c :: l) = 1 + occ c l.
Proof. cbn [occ]. by rewrite decide_True. Qed.

Lemma occ_cons_ne c d l : d ≠ c → occ c (d :: l) = occ c l.
Proof. intros. cbn [occ]. rewrite decide_False by done. lia. Qed.

(** Each character counted once with its multiplicity gives the length. *)
Lemma sum_over_distinct l :
  sum_over (λ c, occ c l) (distinct l) = Z.of_nat (length l).
Proof.
  induction l as [|d l IH]; [done|].
  change (distinct (d :: l)) with (d :: filter (λ c, c ≠ d) (distinct l)).
  rewrite sum_over_cons, occ_cons_eq.
  rewrite (sum_over_filter_ne _ d) in IH by apply NoDup_distinct.
  rewrite (sum_over_ext _ (λ c, occ c l)).
  - assert ((if decide (d ∈ distinct l) then occ d l else 0) = occ d l)
      as Hd; [|rewrite length_cons; lia].
    case_decide as Hin; [done|].
    rewrite elem_of_distinct in Hin. by apply occ_zero in Hin.
  - intros c [Hne _]%list_elem_of_filter. apply occ_cons_ne. congruence.
Qed.

(** When every visited key holds at least what the word asks for, each
    iteration lowers the total by the word's count of the key. *)
Lemma subtract_loop_sum word word_count keys (remaining : counter) :
  NoDup keys →
  (∀ c, c ∈ keys →
        ∃ v, remaining !! c = Some v ∧ get word_count c ≤ v) →
  ∃ remaining',
    for_each (subtract_step word word_count) remaining keys = Ok remaining'
    ∧ sum_values remaining'
      = sum_values remaining - sum_over (get word_count) keys.
Proof.
  intros Hnd. revert remaining.
  induction Hnd as [|c keys Hc Hnd IH]; intros remaining Hcov.
  - exists remaining. split; [done|]. cbn. lia.
  - cbn [for_each]. rewrite sum_over_cons.
    destruct (Hcov c) as (v & Hv & Hle); [left|].
    destruct (subtract_step word word_count remaining c) as [r1|msg] eqn:Hstep;
      [|by rewrite subtract_step_ok in Hstep].
    destruct (IH r1) as (r2 & Hloop & Hsum).
    { intros d Hd. destruct (Hcov d) as (w & Hw & Hlew); [by right|].
      exists w. split; [|done].
      rewrite (subtract_step_lookup _ _ _ _ _ _ Hstep).
      rewrite decide_False; [done | congruence]. }
    exists r2. split; [done|]. rewrite Hsum.
    rewrite subtract_step_ok, Hv in Hstep. injection Hstep as <-.
    destruct (Z.ltb_spec 0 (v - get word_count c)).
    + rewrite (sum_values_insert _ _ _ v) by done. lia.
    + rewrite (sum_values_delete _ _ v) by done. lia.
Qed.
End TotalCount.

(** ** The store model and the functions on values agree *)

Section StoreFacts.
Implicit Types (σ : Store.store) (l r : Store.loc) (m : counter) (c : ascii).

Lemma object_Some σ l m : σ !! l = Some m → Store.object σ l = m.
Proof. unfold Store.object. by intros ->. Qed.

Lemma object_insert σ l m : Store.object (<[l:=m]> σ) l = m.
Proof. apply object_Some, lookup_insert_eq. Qed.

(** Run the reads and writes of a store computation that are in sight. *)
Ltac store_steps Hobj :=
  repeat (cbn beta iota;
          rewrite ?Hobj, ?object_insert, ?insert_insert_eq).

(** One iteration touches the object [r] only, and computes what
    [subtract_step] computes. *)
Lemma subtract_body_run word word_count σ r m c :
  σ !! r = Some m →
  ∃ m', Store.subtract_body word word_count r c σ
        = (match subtract_step word word_count m c with
           | Ok _ => Ok ()
           | Raise msg => Raise msg
           end, <[r := m']> σ)
        ∧ ∀ m1, subtract_step word word_count m c = Ok m1 → m' = m1.
Proof.
  intros Hr. pose proof (object_Some _ _ _ Hr) as Hobj.
  unfold Store.subtract_body, subtract_step.
  unfold mbind, Store.M_bind, Store.contains, Store.getitem, Store.setitem, Store.delitem, Store.raise,
    mret, Store.M_ret.
  store_steps Hobj.
  destruct (bool_decide (is_Some (m !! c))); store_steps Hobj.
  - set (m1 := <[c := get m c - get word_count c]> m).
    destruct (get m1 c <=? 0); store_steps Hobj.
    + destruct (get (delete c m1) c <? 0); eexists; (split; [done|]);
        by intros ? [= <-].
    + destruct (get m1 c <? 0); eexists; (split; [done|]);
        by intros ? [= <-].
  - exists m. rewrite insert_id by done. split; [done|].
    by intros ? [= <-].
Qed.

Lemma subtract_for_run word word_count keys σ r m :
  σ !! r = Some m →
  ∃ m', Store.for_ keys (Store.subtract_body word word_count r) σ
        = (match for_each (subtract_step word word_count) m keys with
           | Ok _ => Ok ()
           | Raise msg => Raise msg
           end, <[r := m']> σ)
        ∧ ∀ m1, for_each (subtract_step word word_count) m keys = Ok m1 →
                m' = m1.
Proof.
  revert σ m. induction keys as [|c keys IH]; intros σ m Hr.
  - exists m. cbn. rewrite insert_id by done. split; [done|].
    by intros ? [= <-].
  - cbn [Store.for_ for_each]. unfold mbind at 1, Store.M_bind at 1.
    destruct (subtract_body_run word word_count σ r m c Hr)
      as (m1 & -> & Hm1).
    destruct (subtract_step word word_count m c) as [m2|msg]; cbn.
    + rewrite (Hm1 m2 eq_refl).
      destruct (IH (<[r:=m2]> σ) m2) as (m3 & -> & Hm3);
        [apply lookup_insert_eq|].
      exists m3. by rewrite insert_insert_eq.
    + exists m1. split; [done | intros; discriminate].
Qed.

(** The store after [subtract_letters]: one new Store.object, and as result what
    the function on values gives. *)
Lemma subtract_letters_run σ l base word :
  σ !! l = Some base →
  ∃ m', Store.subtract_letters l word σ
        = (match subtract_letters base word with
           | Ok _ => Ok (fresh (dom σ))
           | Raise msg => Raise msg
           end, <[fresh (dom σ) := m']> σ)
        ∧ ∀ m1, subtract_letters base word = Ok m1 → m' = m1.
Proof.
  intros Hl. unfold Store.subtract_letters, subtract_letters.
  unfold mbind at 1, Store.M_bind at 1, Store.copy.
  rewrite (object_Some _ _ _ Hl).
  set (l' := fresh (dom σ)).
  destruct (subtract_for_run word (Counter (lower word))
              (Counter_keys (lower word)) (<[l':=base]> σ) l' base)
    as (m' & Hrun & Hm'); [apply lookup_insert_eq|].
  exists m'. unfold mbind, Store.M_bind. rewrite Hrun, insert_insert_eq.
  split; [|done].
  by destruct (for_each _ _ _).
Qed.

Lemma is_valid_anagram_run σ l base word :
  σ !! l = Some base →
  Store.is_valid_anagram l word σ = (Ok (is_valid_anagram base word), σ).
Proof.
  intros Hl. unfold Store.is_valid_anagram, is_valid_anagram.
  induction (Counter_keys word) as [|c keys IH]; [done|].
  cbn [Store.all_ forallb]. unfold mbind, Store.M_bind, Store.getitem. cbn.
  rewrite (object_Some _ _ _ Hl).
  destruct (get (Counter word) c <=? get base c); [apply IH | done].
Qed.
End StoreFacts.

(** Characters of the word that the base does not hold are skipped by the
    guard [if char in remaining]. *)
Lemma subtract_step_absent word word_count (remaining : counter) (c : ascii) :
  remaining !! c = None →
  subtract_step word word_count remaining c = Ok remaining.
Proof.
  intros Hc. unfold subtract_step.
  rewrite bool_decide_eq_false_2; [done|].
  rewrite Hc. by intros [? ?].
Qed.

Lemma subtract_letters_absent (base : counter) (word : string) :
  (∀ c, c ∈ chars (lower word) → base !! c = None) →
  subtract_letters base word = Ok base.
Proof.
  unfold subtract_letters, Counter_keys. intros Habs.
  assert (∀ c, c ∈ distinct (chars (lower word)) → base !! c = None) as H.
  { intros c Hc. apply Habs. by apply elem_of_distinct. }
  clear Habs. induction (distinct (chars (lower word))) as [|c keys IH]; [done|].
  cbn [for_each]. rewrite subtract_step_absent by (apply H; left).
  apply IH. intros d Hd. apply H. by right.
Qed.

Lemma Counter_lower_lowercase (s : string) : lowercase_keys (Counter (lower s)).
Proof.
  intros c [v Hv]. unfold Counter in Hv.
  rewrite Counter_of_list_lookup in Hv.
  case_decide as Hin; [|done]. by apply lower_chars_fixed in Hin.
Qed.

Lemma subtracted_positive (letter_count : counter) (word : string) :
  positive_counts letter_count → positive_counts (subtracted letter_count word).
Proof.
  intros Hpos c v. unfold subtracted. rewrite map_lookup_imap.
  destruct (letter_count !! c) as [w|] eqn:Hw; [|done]. cbn.
  case_decide.
  - unfold lowered. destruct (Z.ltb_spec 0 (w - get (Counter (lower word)) c));
      [|done]. by intros [= <-].
  - intros [= <-]. by apply (Hpos c).
Qed.

(** ** Properties of [subtract_letters] *)

(** C10: [subtract_letters] is total and never raises, for every base and
    every word.  No iteration can reach the [raise]; a character of the
    case-folded word that the base does not hold is ignored; a count that
    would reach zero or go negative is removed; a count that stays positive
    is lowered by the word's count; entries for other characters are kept;
    and a base with strictly positive counts gives a result with strictly
    positive counts. *)
Theorem subtract_letters_never_raises (letter_count : counter) (word : string) :
  ∃ remaining,
    subtract_letters letter_count word = Ok remaining
    ∧ (∀ rem c msg,
         subtract_step word (Counter (lower word)) rem c ≠ Raise msg)
    ∧ (∀ c, c ∈ chars (lower word) → letter_count !! c = None →
            remaining !! c = None)
    ∧ (∀ c v, c ∈ chars (lower word) → letter_count !! c = Some v →
              v - occ c (chars (lower word)) ≤ 0 → remaining !! c = None)
    ∧ (∀ c v, c ∈ chars (lower word) → letter_count !! c = Some v →
              0 < v - occ c (chars (lower word)) →
              remaining !! c = Some (v - occ c (chars (lower word))))
    ∧ (∀ c, c ∉ chars (lower word) → remaining !! c = letter_count !! c)
    ∧ (positive_counts letter_count → positive_counts remaining).
Proof.
  exists (subtracted letter_count word).
  split; [apply subtract_letters_eq|].
  split; [intros rem c msg; by rewrite subtract_step_ok|].
  unfold subtracted at 1 2 3 4.
  repeat split.
  - intros c Hc Hnone. by rewrite map_lookup_imap, Hnone.
  - intros c v Hc Hv Hle. rewrite map_lookup_imap, Hv. cbn.
    rewrite decide_True by done. unfold lowered, Counter.
    rewrite get_Counter_of_list.
    destruct (Z.ltb_spec 0 (v - occ c (chars (lower word)))); [lia | done].
  - intros c v Hc Hv Hlt. rewrite map_lookup_imap, Hv. cbn.
    rewrite decide_True by done. unfold lowered, Counter.
    rewrite get_Counter_of_list.
    destruct (Z.ltb_spec 0 (v - occ c (chars (lower word)))); [done | lia].
  - intros c Hc. rewrite map_lookup_imap.
    destruct (letter_count !! c); [|done]. cbn. by rewrite decide_False.
  - apply subtracted_positive.
Qed.

Lemma subtract_letters_never_raises_witness :
  ∃ remaining,
    subtract_letters (Counter "cat") "at" = Ok remaining
    ∧ positive_counts remaining.
Proof.
  destruct (subtract_letters_never_raises (Counter "cat") "at")
    as (remaining & Hrun & _ & _ & _ & _ & _ & Hpos).
  exists remaining. split; [exact Hrun|].
  apply Hpos, Counter_positive.
Defined.

(** C9, as stated, fails: the multiset with the single key "A" covers the
    word "A" as it is written, the subtraction case-folds the word, finds no
    "a" to take, and returns the multiset with its total unchanged. *)
Lemma subtract_letters_upper_case_key :
  is_valid_anagram {["A"%char := 1]} "A" = true
  ∧ subtract_letters {["A"%char := 1]} "A" = Ok {["A"%char := 1]}
  ∧ sum_values ({["A"%char := 1]} : counter)
    ≠ sum_values ({["A"%char := 1]} : counter) - len "A".
Proof.
  split; [reflexivity|]. split; [vm_compute; reflexivity|].
  vm_compute. discriminate.
Qed.

(** C9, amended: for every multiset [M] and word [W] such that [M] covers the
    case-folded [W], [subtract_letters M W] succeeds and the total count of
    the result is the total count of [M] minus the length of the case-folded
    [W]; in particular, when [M] covers [W] as it is written and the keys of
    [M] are case-folded characters or [W] is lower-case, the total count of
    the result is the total count of [M] minus the length of [W]. *)
Theorem subtract_letters_total_count (M : counter) (W : string) :
  (is_valid_anagram M (lower W) = true →
   ∃ R, subtract_letters M W = Ok R
        ∧ sum_values R = sum_values M - len (lower W))
  ∧ (lowercase_keys M ∨ lower W = W →
     is_valid_anagram M W = true →
     ∃ R, subtract_letters M W = Ok R
          ∧ sum_values R = sum_values M - len W).
Proof.
  assert (is_valid_anagram M (lower W) = true →
          ∃ R, subtract_letters M W = Ok R
               ∧ sum_values R = sum_values M - len (lower W)) as Hfolded.
  { intros Hcov. rewrite is_valid_anagram_iff in Hcov.
    unfold subtract_letters.
    destruct (subtract_loop_sum W (Counter (lower W))
                (Counter_keys (lower W)) M) as (R & HR & Hsum).
    { apply NoDup_distinct. }
    { intros c Hc. unfold Counter_keys in Hc. rewrite elem_of_distinct in Hc.
      specialize (Hcov c Hc). rewrite occ_pos in Hc.
      unfold Counter. rewrite get_Counter_of_list.
      destruct (M !! c) as [v|] eqn:Hv.
      - exists v. by rewrite (get_Some _ _ _ Hv) in Hcov.
      - rewrite (get_None _ _ Hv) in Hcov. lia. }
    exists R. split; [done|]. rewrite Hsum. f_equal.
    unfold Counter_keys. rewrite len_chars, <-sum_over_distinct.
    apply sum_over_ext. intros c _. unfold Counter.
    apply get_Counter_of_list. }
  split; [exact Hfolded|].
  intros Hmodel Hcov.
  assert (lower W = W) as Hlow.
  { destruct Hmodel as [Hkeys|HW]; [|done].
    rewrite is_valid_anagram_iff in Hcov.
    apply lower_fixed. intros c Hc. apply Hkeys.
    specialize (Hcov c Hc). rewrite occ_pos in Hc.
    destruct (M !! c) as [v|] eqn:Hv; [eauto|].
    rewrite (get_None _ _ Hv) in Hcov. lia. }
  rewrite Hlow in Hfolded. by apply Hfolded.
Qed.

Lemma subtract_letters_total_count_witness :
  (∃ R, subtract_letters (Counter "cat") "AT" = Ok R
        ∧ sum_values R = sum_values (Counter "cat") - len (lower "AT"))
  ∧ (∃ R, subtract_letters (Counter "cat") "at" = Ok R
          ∧ sum_values R = sum_values (Counter "cat") - len "at").
Proof.
  destruct (subtract_letters_total_count (Counter "cat") "AT") as [Hfolded _].
  destruct (subtract_letters_total_count (Counter "cat") "at") as [_ Hwritten].
  split.
  - apply Hfolded. reflexivity.
  - apply Hwritten; [|reflexivity].
    left. exact (Counter_lower_lowercase "cat").
Defined.

(** C1, as stated, fails: no character of "dog" occurs in the letters of
    "cat", and the subtraction succeeds, returning the letters unchanged. *)
Lemma subtract_letters_cat_dog_succeeds :
  "d"%char ∈ chars (lower "dog")
  ∧ Counter "cat" !! "d"%char = None
  ∧ subtract_letters (Counter "cat") "dog" = Ok (Counter "cat")
  ∧ ¬ ∃ msg, subtract_letters (Counter "cat") "dog" = Raise msg.
Proof.
  split; [by left|]. split; [reflexivity|].
  assert (subtract_letters (Counter "cat") "dog" = Ok (Counter "cat")) as H
    by (vm_compute; reflexivity).
  split; [exact H|]. intros [msg Hmsg]. congruence.
Qed.

(** C1, amended: [subtract_letters] works on a copy.  Whether the call
    returns or raises, the store differs from the caller's only by one new
    object, so the base (and every object that existed) is unchanged; and the
    characters of the case-folded word that the base does not hold are
    skipped: when the base holds none of them the call returns a copy equal
    to the base. *)
Theorem subtract_letters_works_on_copy (σ : Store.store) (l : Store.loc)
    (base : counter) (word : string) :
  σ !! l = Some base →
  ∃ (l' : Store.loc) (m' : counter) (r : result Store.loc),
    Store.subtract_letters l word σ = (r, <[l' := m']> σ)
    ∧ (l' ∉ dom σ)
    ∧ (∀ k, k ∈ dom σ → <[l' := m']> σ !! k = σ !! k)
    ∧ <[l' := m']> σ !! l = Some base
    ∧ (r = Ok l' ∨ ∃ msg, r = Raise msg)
    ∧ ((∀ c, c ∈ chars (lower word) → base !! c = None) →
       r = Ok l' ∧ m' = base).
Proof.
  intros Hl.
  destruct (subtract_letters_run σ l base word Hl) as (m' & Hrun & Hm').
  pose proof (is_fresh (dom σ)) as Hfresh.
  set (l' := fresh (dom σ)) in *.
  assert (∀ k, k ∈ dom σ → <[l' := m']> σ !! k = σ !! k) as Hframe.
  { intros k Hk. apply lookup_insert_ne. intros ->. done. }
  exists l', m'. eexists. split; [exact Hrun|].
  split; [done|]. split; [done|].
  split; [rewrite Hframe; [done | apply elem_of_dom; eauto]|].
  split.
  - destruct (subtract_letters base word); eauto.
  - intros Habs. rewrite (subtract_letters_absent _ _ Habs) in Hm' |- *.
    split; [done|]. by apply Hm'.
Qed.

Lemma subtract_letters_works_on_copy_witness :
  ∃ (l' : Store.loc) (m' : counter) (r : result Store.loc),
    Store.subtract_letters 0%nat "dog" {[0%nat := Counter "cat"]}
    = (r, <[l' := m']> {[0%nat := Counter "cat"]})
    ∧ <[l' := m']> ({[0%nat := Counter "cat"]} : Store.store) !! 0%nat
      = Some (Counter "cat").
Proof.
  assert (({[0%nat := Counter "cat"]} : Store.store) !! 0%nat
          = Some (Counter "cat")) as Hl by reflexivity.
  destruct (subtract_letters_works_on_copy _ _ _ "dog" Hl)
    as (l' & m' & r & Hrun & _ & _ & Hbase & _).
  exists l', m', r. split; [exact Hrun | exact Hbase].
Defined.

(** ** Properties of [is_valid_anagram] *)

(** C7, as stated, fails: the letters of "cat" hold every case-folded
    character of "CAT" often enough, its lower-case form is covered, and
    "CAT" itself is not. *)
Lemma is_valid_anagram_upper_case_rejected :
  (∀ c, c ∈ chars (lower "CAT") →
        occ c (chars (lower "CAT")) ≤ get (Counter "cat") c)
  ∧ is_valid_anagram (Counter "cat") (lower "CAT") = true
  ∧ is_valid_anagram (Counter "cat") "CAT" = false.
Proof.
  split; [|split; reflexivity].
  apply is_valid_anagram_iff. reflexivity.
Qed.

(** C7, amended: [is_valid_anagram] returns true iff every character of the
    word, as it is written (no case folding is applied), occurs in the base
    at least as often as in the word; for a word that is its own lower-case
    form this is the condition on the case-folded characters; and the call
    leaves the store, hence the base, as it was. *)
Theorem is_valid_anagram_as_written (σ : Store.store) (l : Store.loc)
    (base : counter) (word : string) :
  σ !! l = Some base →
  Store.is_valid_anagram l word σ = (Ok (is_valid_anagram base word), σ)
  ∧ (is_valid_anagram base word = true
     ↔ ∀ c, c ∈ chars word → occ c (chars word) ≤ get base c)
  ∧ (lower word = word →
     (is_valid_anagram base word = true
      ↔ ∀ c, c ∈ chars (lower word) →
             occ c (chars (lower word)) ≤ get base c)).
Proof.
  intros Hl. split; [by apply is_valid_anagram_run|].
  split; [apply is_valid_anagram_iff|].
  intros ->. apply is_valid_anagram_iff.
Qed.

Lemma is_valid_anagram_as_written_witness :
  Store.is_valid_anagram 0%nat "cat" {[0%nat := Counter "cat"]}
  = (Ok true, {[0%nat := Counter "cat"]}).
Proof.
  exact (proj1 (is_valid_anagram_as_written {[0%nat := Counter "cat"]} 0%nat
                  (Counter "cat") "cat" eq_refl)).
Defined.

(** ** [sorted]: a stable sort *)

Section SortedFacts.
Context {A : Type} (le : A → A → bool).
Implicit Types (x y : A) (l : list A).

Lemma insert_sorted_Permutation x l : insert_sorted le x l ≡ₚ x :: l.
Proof.
  induction l as [|y l IH]; [done|]. cbn [insert_sorted].
  destruct (le x y); [done|]. rewrite IH. apply Permutation_swap.
Qed.

Lemma sorted_Permutation l : sorted le l ≡ₚ l.
Proof.
  induction l as [|x l IH]; [done|]. cbn [sorted foldr].
  fold (sorted le l). by rewrite insert_sorted_Permutation, IH.
Qed.

Lemma elem_of_sorted x l : x ∈ sorted le l ↔ x ∈ l.
Proof. by rewrite sorted_Permutation. Qed.

(** Elements with the same key keep their relative order: [x] is inserted
    before the first element that it does not come after. *)
Lemma insert_sorted_filter (P : A → Prop) `{!∀ x, Decision (P x)} x l :
  (∀ y, P x → P y → le x y = true) →
  filter P (insert_sorted le x l) = filter P (x :: l).
Proof.
  intros Hclass. induction l as [|y l IH]; [done|]. cbn [insert_sorted].
  destruct (le x y) eqn:Hxy; [done|].
  rewrite filter_cons, IH, !filter_cons.
  destruct (decide (P x)) as [Hx|Hx]; [|done].
  destruct (decide (P y)) as [Hy|Hy]; [|done].
  rewrite Hclass in Hxy; done.
Qed.

Lemma sorted_stable (P : A → Prop) `{!∀ x, Decision (P x)} l :
  (∀ x y, P x → P y → le x y = true) →
  filter P (sorted le l) = filter P l.
Proof.
  intros Hclass. induction l as [|x l IH]; [done|]. cbn [sorted foldr].
  fold (sorted le l). rewrite insert_sorted_filter by auto.
  by rewrite !filter_cons, IH.
Qed.

Section Order.
Hypothesis le_total : ∀ x y, le x y = true ∨ le y x = true.
Hypothesis le_trans : ∀ x y z, le x y = true → le y z = true → le x z = true.

Lemma insert_sorted_StronglySorted x l :
  StronglySorted (λ x y, le x y = true) l →
  StronglySorted (λ x y, le x y = true) (insert_sorted le x l).
Proof.
  induction 1 as [|y l Hl IH Hy]; cbn [insert_sorted].
  { repeat constructor. }
  destruct (le x y) eqn:Hxy.
  - constructor; [by constructor|]. constructor; [done|].
    eapply Forall_impl; [exact Hy|]. intros z Hz. by eapply le_trans.
  - constructor; [done|].
    rewrite insert_sorted_Permutation. constructor; [|done].
    destruct (le_total x y); congruence.
Qed.

Lemma sorted_StronglySorted l :
  StronglySorted (λ x y, le x y = true) (sorted le l).
Proof.
  induction l as [|x l IH]; [constructor|]. cbn [sorted foldr].
  by apply insert_sorted_StronglySorted.
Qed.
End Order.
End SortedFacts.

Lemma StronglySorted_weaken {A} (R1 R2 : relation A) (l : list A) :
  (∀ x y, R1 x y → R2 x y) → StronglySorted R1 l → StronglySorted R2 l.
Proof.
  intros Himpl. induction 1 as [|x l Hl IH Hx]; constructor; [done|].
  eapply Forall_impl; [exact Hx|]. intros y. apply Himpl.
Qed.

(** ** [find_anagrams] *)

Section FindAnagrams.
Implicit Types (x y z word : string) (letters_count : counter).

Lemma anagram_key_le_order x y :
  anagram_key_le x y = true ↔ anagram_order x y.
Proof.
  unfold anagram_key_le, anagram_order, String.le.
  rewrite orb_true_iff, andb_true_iff, Z.ltb_lt, Z.eqb_eq, Is_true_true.
  split; (intros [?|[? ?]]; [left; lia | right; split; [lia | done]]).
Qed.

Lemma anagram_key_le_total x y :
  anagram_key_le x y = true ∨ anagram_key_le y x = true.
Proof.
  rewrite !anagram_key_le_order. unfold anagram_order.
  destruct (Z.lt_trichotomy (len x) (len y)) as [?|[?|?]]; auto.
  destruct (total String.le x y); auto.
Qed.

Lemma anagram_key_le_trans x y z :
  anagram_key_le x y = true → anagram_key_le y z = true →
  anagram_key_le x z = true.
Proof.
  rewrite !anagram_key_le_order. unfold anagram_order.
  intros [?|[? Hxy]] [?|[? Hyz]]; try lia.
  right. split; [lia|]. by etrans.
Qed.

#[global] Instance anagram_order_antisymm : AntiSymm (=) anagram_order.
Proof.
  intros x y [?|[? Hxy]] [?|[? Hyx]]; try lia.
  by apply (anti_symm String.le).
Qed.

(** The handler of [find_anagrams] is never entered: every exclusion
    succeeds. *)
Lemma exclude_loop_inr letters_count (exclude_words : list string) :
  exclude_loop letters_count exclude_words
  = inr (foldl subtracted letters_count exclude_words).
Proof.
  revert letters_count.
  induction exclude_words as [|word rest IH]; intros letters_count; [done|].
  cbn [exclude_loop foldl]. by rewrite subtract_letters_eq, IH.
Qed.

Lemma find_anagrams_eq letters (word_list : list string) min_length
    exclude_words :
  find_anagrams letters word_list min_length exclude_words
  = let letters_count :=
      foldl subtracted (Counter (lower (remove_spaces letters)))
            (default [] exclude_words) in
    (sorted anagram_key_le
       (filter (λ word, Is_true (accepts letters_count min_length word))
               word_list),
     letters_count).
Proof.
  unfold find_anagrams.
  destruct exclude_words as [[|word rest]|]; [done| |done].
  by rewrite exclude_loop_inr.
Qed.

Lemma accepts_iff letters_count min_length word :
  accepts letters_count min_length word
  ↔ is_valid_anagram letters_count word = true
    ∧ min_length ≤ len word
    ∧ len word ≤ sum_values letters_count.
Proof.
  unfold accepts.
  rewrite !andb_True, !Is_true_true, !Z.leb_le. tauto.
Qed.
End FindAnagrams.

(** C3: for every letter multiset [M], word list and minimum length [L], a
    word is in the output of the matching loop run against [M] iff it is in
    the word list, is covered by [M], has length at least [L] and at most the
    total count of [M]; and [find_anagrams] returns the output of that loop
    for the multiset [M] obtained from its inputs, the letters case-folded
    without spaces with the exclusion words subtracted in turn, together with
    [M]. *)
Theorem find_anagrams_accepts (letters : string) (word_list : list string)
    (L : Z) (exclude_words : option (list string)) :
  (∀ (M : counter) (W : string),
      W ∈ matching_loop M word_list L
      ↔ W ∈ word_list
        ∧ is_valid_anagram M W = true
        ∧ L ≤ len W
        ∧ len W ≤ sum_values M)
  ∧ ∃ M : counter,
      for_each subtract_letters (Counter (lower (remove_spaces letters)))
               (default [] exclude_words) = Ok M
      ∧ find_anagrams letters word_list L exclude_words
        = (matching_loop M word_list L, M).
Proof.
  split.
  - intros M W. unfold matching_loop.
    rewrite elem_of_sorted, list_elem_of_filter, accepts_iff. tauto.
  - exists (foldl subtracted (Counter (lower (remove_spaces letters)))
                   (default [] exclude_words)).
    split; [|apply find_anagrams_eq].
    generalize (Counter (lower (remove_spaces letters))).
    induction (default [] exclude_words) as [|word rest IH]; intros M; [done|].
    cbn [for_each foldl]. rewrite subtract_letters_eq.
    cbn [mbind result_bind]. apply IH.
Qed.

(** C4: the output of the matcher is sorted, longer words first and words of
    equal length in ascending lexicographic order; and it is the same list
    for every order in which the word list is enumerated. *)
Theorem find_anagrams_sorted (letters : string) (word_list : list string)
    (L : Z) (exclude_words : option (list string)) :
  StronglySorted anagram_order
    (find_anagrams letters word_list L exclude_words).1
  ∧ ∀ word_list',
      word_list' ≡ₚ word_list →
      (find_anagrams letters word_list' L exclude_words).1
      = (find_anagrams letters word_list L exclude_words).1.
Proof.
  assert (∀ wl, StronglySorted anagram_order
                  (find_anagrams letters wl L exclude_words).1) as Hsorted.
  { intros wl. rewrite find_anagrams_eq. cbn zeta. cbn [fst].
    eapply StronglySorted_weaken;
      [|apply sorted_StronglySorted;
        [apply anagram_key_le_total | apply anagram_key_le_trans]].
    intros x y. apply anagram_key_le_order. }
  split; [apply Hsorted|].
  intros word_list' Hperm.
  apply (StronglySorted_unique anagram_order); [apply Hsorted..|].
  rewrite !find_anagrams_eq. cbn zeta. cbn [fst].
  by rewrite !sorted_Permutation, Hperm.
Qed.

(** C2, as stated, fails: with "cat" in the word list, excluding "dog" from
    the letters "cat" gives a non-empty anagram list. *)
Lemma exclude_dog_from_cat_finds_cat :
  find_anagrams "cat" ["cat"%string] 1 (Some ["dog"%string])
  = (["cat"%string], cat_letters)
  ∧ (find_anagrams "cat" ["cat"%string] 1 (Some ["dog"%string])).1 ≠ [].
Proof.
  assert (find_anagrams "cat" ["cat"%string] 1 (Some ["dog"%string])
          = (["cat"%string], cat_letters)) as H
    by (vm_compute; reflexivity).
  rewrite H. by split.
Qed.

(** C2, amended: for the letters "cat" and the exclusion list ["dog"] the
    subtraction succeeds (no character of "dog" is held, and all are
    skipped), the matching goes on, and the result is the sorted list of the
    words the unchanged multiset {a:1, c:1, t:1} accepts, together with that
    multiset: what the search gives with no exclusion at all. *)
Theorem find_anagrams_cat_dog (word_list : list string) (min_length : Z) :
  subtract_letters cat_letters "dog" = Ok cat_letters
  ∧ find_anagrams "cat" word_list min_length (Some ["dog"%string])
    = (sorted anagram_key_le
         (filter (λ word, Is_true (accepts cat_letters min_length word))
                 word_list),
       cat_letters)
  ∧ find_anagrams "cat" word_list min_length (Some ["dog"%string])
    = find_anagrams "cat" word_list min_length None.
Proof.
  assert (subtract_letters cat_letters "dog" = Ok cat_letters) as Hsub
    by (vm_compute; reflexivity).
  assert (Counter (lower (remove_spaces "cat")) = cat_letters) as Hcat
    by (vm_compute; reflexivity).
  split; [exact Hsub|].
  unfold find_anagrams. rewrite Hcat. cbn [exclude_loop].
  by rewrite Hsub.
Qed.

(** ** [generate_sentence], full-match mode *)

Section FullMatch.
Implicit Types (words ws current_words : list string) (remaining : counter).

Lemma find_loop_fix current_words remaining ws :
  (fix loop (ws : list string) : result (option (list string)) :=
     match ws with
     | [] => Ok None
     | word :: rest =>
         let word_count := Counter word in
         if forallb (λ c, get word_count c <=? get remaining c)
                    (Counter_keys word)
         then
           new_remaining ← subtract_letters remaining word;
           result ← find_full_match rest (current_words ++ [word])
                                    new_remaining;
           match result with
           | Some (_ :: _) => Ok result
           | _ => loop rest
           end
         else loop rest
     end) ws
  = find_loop current_words remaining ws.
Proof.
  induction ws as [|w ws IH]; [done|].
  cbn [find_loop]. rewrite <-IH. reflexivity.
Qed.

Lemma find_full_match_unfold words current_words remaining :
  find_full_match words current_words remaining
  = if bool_decide (remaining = ∅) && bool_decide (current_words ≠ [])
    then Ok (Some current_words)
    else find_loop current_words remaining words.
Proof.
  destruct words as [|word rest]; [done|].
  rewrite <-find_loop_fix. reflexivity.
Qed.

(** The search raises nothing and, when it returns words, returns
    [current_words] followed by a non-empty run of candidates, in their
    order, that drives the residual to zero. *)
Lemma find_sound words :
  (∀ current_words remaining,
      ∃ o, find_full_match words current_words remaining = Ok o
           ∧ ∀ r, o = Some r →
                 r ≠ []
                 ∧ ∃ ws, r = current_words ++ ws
                         ∧ ws `sublist_of` words
                         ∧ drives_to_zero remaining ws = true)
  ∧ (∀ current_words remaining,
      ∃ o, find_loop current_words remaining words = Ok o
           ∧ ∀ r, o = Some r →
                 r ≠ []
                 ∧ ∃ ws, r = current_words ++ ws
                         ∧ ws `sublist_of` words
                         ∧ drives_to_zero remaining ws = true).
Proof.
  induction words as [|word rest [IHfull IHloop]].
  - assert (∀ current_words remaining,
               ∃ o, find_loop current_words remaining [] = Ok o
                    ∧ ∀ r, o = Some r →
                           r ≠ []
                           ∧ ∃ ws, r = current_words ++ ws
                                   ∧ ws `sublist_of` []
                                   ∧ drives_to_zero remaining ws = true)
      as Hloop.
    { intros. exists None. split; [done|]. intros; discriminate. }
    split; [|exact Hloop].
    intros current_words remaining. rewrite find_full_match_unfold.
    destruct (bool_decide (remaining = ∅)) eqn:Hrem;
      destruct (bool_decide (current_words ≠ [])) eqn:Hcur; cbn [andb];
      try apply Hloop.
    exists (Some current_words). split; [done|]. intros r [= <-].
    apply bool_decide_eq_true_1 in Hcur. split; [done|].
    exists []. rewrite app_nil_r. split; [done|]. split; [done|].
    exact Hrem.
  - assert (∀ current_words remaining,
               ∃ o, find_loop current_words remaining (word :: rest) = Ok o
                    ∧ ∀ r, o = Some r →
                           r ≠ []
                           ∧ ∃ ws, r = current_words ++ ws
                                   ∧ ws `sublist_of` word :: rest
                                   ∧ drives_to_zero remaining ws = true)
      as Hloop.
    { intros current_words remaining. cbn [find_loop].
      destruct (IHloop current_words remaining) as (o2 & Ho2 & Hspec2).
      assert (∃ o, find_loop current_words remaining rest = Ok o
                   ∧ ∀ r, o = Some r →
                          r ≠ []
                          ∧ ∃ ws, r = current_words ++ ws
                                  ∧ ws `sublist_of` word :: rest
                                  ∧ drives_to_zero remaining ws = true)
        as Hskip.
      { exists o2. split; [done|]. intros r Hr.
        destruct (Hspec2 r Hr) as (Hne & ws & -> & Hsub & Hz).
        split; [done|]. exists ws. split; [done|].
        split; [by apply sublist_cons | done]. }
      destruct (is_valid_anagram remaining word) eqn:Hcov; [|exact Hskip].
      rewrite subtract_letters_eq. cbn [mbind result_bind].
      destruct (IHfull (current_words ++ [word]) (subtracted remaining word))
        as (o1 & -> & Hspec1).
      cbn [mbind result_bind].
      destruct o1 as [[|w1 r1]|]; [exact Hskip| |exact Hskip].
      exists (Some (w1 :: r1)). split; [done|]. intros r [= <-].
      destruct (Hspec1 (w1 :: r1) eq_refl) as (_ & ws & Heq & Hsub & Hz).
      split; [done|]. exists (word :: ws).
      rewrite Heq, <-app_assoc. split; [done|].
      split; [by apply sublist_skip|].
      cbn [drives_to_zero]. by rewrite Hcov, subtract_letters_eq, Hz. }
    split; [|exact Hloop].
    intros current_words remaining. rewrite find_full_match_unfold.
    destruct (bool_decide (remaining = ∅)) eqn:Hrem;
      destruct (bool_decide (current_words ≠ [])) eqn:Hcur; cbn [andb];
      try apply Hloop.
    exists (Some current_words). split; [done|]. intros r [= <-].
    apply bool_decide_eq_true_1 in Hcur. split; [done|].
    exists []. rewrite app_nil_r. split; [done|].
    split; [apply sublist_nil_l | exact Hrem].
Qed.
End FullMatch.

Section DrivesToZero.
Implicit Types (ws : list string) (remaining : counter) (c : ascii).

Lemma subtracted_lookup remaining word c :
  subtracted remaining word !! c
  = remaining !! c
    ≫= λ v, if decide (c ∈ chars (lower word))
            then lowered (Counter (lower word)) c v
            else Some v.
Proof. unfold subtracted. apply map_lookup_imap. Qed.

Lemma drives_to_zero_cons remaining w ws :
  drives_to_zero remaining (w :: ws) = true
  ↔ is_valid_anagram remaining w = true
    ∧ drives_to_zero (subtracted remaining w) ws = true.
Proof.
  cbn [drives_to_zero]. by rewrite subtract_letters_eq, andb_true_iff.
Qed.

(** A key that is not a case-folded character is never removed, so a
    residual that can be driven to zero has none. *)
Lemma drives_to_zero_lowercase remaining ws :
  drives_to_zero remaining ws = true → lowercase_keys remaining.
Proof.
  revert remaining. induction ws as [|w ws IH]; intros remaining.
  - cbn. intros ->%bool_decide_eq_true_1 c [v Hv].
    by rewrite lookup_empty in Hv.
  - rewrite drives_to_zero_cons. intros [_ Hz] c [v Hv].
    destruct (decide (c ∈ chars (lower w))) as [Hin|Hout].
    + by apply lower_chars_fixed in Hin.
    + apply (IH _ Hz). exists v.
      rewrite subtracted_lookup, Hv. cbn. by rewrite decide_False.
Qed.

(** A word covered by a multiset with case-folded keys is its own
    lower-case form. *)
Lemma covered_lower remaining w :
  lowercase_keys remaining →
  is_valid_anagram remaining w = true → lower w = w.
Proof.
  intros Hkeys Hcov. rewrite is_valid_anagram_iff in Hcov.
  apply lower_fixed. intros c Hc. apply Hkeys.
  specialize (Hcov c Hc). apply occ_pos in Hc.
  destruct (remaining !! c) as [v|] eqn:Hv; [eauto|].
  rewrite (get_None _ _ Hv) in Hcov. lia.
Qed.

(** Words that drive the residual to zero hold exactly its letters. *)
Lemma drives_to_zero_letters remaining ws :
  drives_to_zero remaining ws = true →
  Counter_of_list (all_chars ws) = remaining.
Proof.
  revert remaining. induction ws as [|w ws IH]; intros remaining Hz.
  - cbn in Hz. by apply bool_decide_eq_true_1 in Hz as ->.
  - pose proof (drives_to_zero_lowercase _ _ Hz) as Hkeys.
    apply drives_to_zero_cons in Hz as [Hcov Hz].
    pose proof (covered_lower _ _ Hkeys Hcov) as Hlow.
    specialize (IH _ Hz). rewrite is_valid_anagram_iff in Hcov.
    apply map_eq. intros c. cbn [all_chars].
    rewrite Counter_of_list_lookup, occ_app.
    assert (Hc := f_equal (.!! c) IH). cbn beta in Hc.
    rewrite Counter_of_list_lookup, subtracted_lookup, Hlow in Hc.
    unfold lowered, Counter in Hc. rewrite get_Counter_of_list in Hc.
    destruct (decide (c ∈ chars w)) as [Hin|Hout].
    + rewrite decide_True by (apply elem_of_app; by left).
      specialize (Hcov c Hin).
      pose proof Hin as Hpos. rewrite occ_pos in Hpos.
      destruct (remaining !! c) as [v|] eqn:Hv.
      * rewrite (get_Some _ _ _ Hv) in Hcov. cbn in Hc.
        destruct (Z.ltb_spec 0 (v - occ c (chars w)));
          destruct (decide (c ∈ all_chars ws)) as [Hi|Hi]; simplify_eq.
        -- f_equal. lia.
        -- rewrite occ_zero in Hi. f_equal. lia.
      * rewrite (get_None _ _ Hv) in Hcov. lia.
    + pose proof Hout as Hout0. rewrite occ_zero in Hout0.
      destruct (remaining !! c) as [v|] eqn:Hv; cbn in Hc.
      * destruct (decide (c ∈ all_chars ws)); simplify_eq.
        rewrite decide_True by (apply elem_of_app; by right).
        f_equal. lia.
      * destruct (decide (c ∈ all_chars ws)); simplify_eq.
        rewrite decide_False; [done|].
        by intros [?|?]%elem_of_app.
Qed.

(** Subtracting the words one after the other leaves nothing. *)
Lemma drives_to_zero_residual remaining ws :
  drives_to_zero remaining ws = true →
  for_each subtract_letters remaining ws = Ok ∅.
Proof.
  revert remaining. induction ws as [|w ws IH]; intros remaining Hz.
  - cbn in Hz. by apply bool_decide_eq_true_1 in Hz as ->.
  - apply drives_to_zero_cons in Hz as [_ Hz].
    cbn [for_each]. rewrite subtract_letters_eq. by apply IH.
Qed.
End DrivesToZero.

(** The search is exhaustive: when some non-empty run of candidates, in their
    order, drives the residual to zero, words are returned. *)
Lemma find_complete (words : list string) :
  (∀ (current_words : list string) (remaining : counter) ws,
      ws `sublist_of` words →
      drives_to_zero remaining ws = true →
      current_words ++ ws ≠ [] →
      ∃ w r, find_full_match words current_words remaining
             = Ok (Some (w :: r)))
  ∧ (∀ (current_words : list string) (remaining : counter) w ws,
      w :: ws `sublist_of` words →
      drives_to_zero remaining (w :: ws) = true →
      ∃ w' r, find_loop current_words remaining words = Ok (Some (w' :: r))).
Proof.
  induction words as [|word rest [IHfull IHloop]].
  - split.
    + intros current_words remaining ws ->%sublist_nil_r Hz Hne.
      rewrite app_nil_r in Hne. cbn in Hz.
      rewrite find_full_match_unfold, Hz.
      rewrite bool_decide_eq_true_2 by done. cbn [andb].
      destruct current_words as [|w r]; [done | eauto].
    + intros current_words remaining w ws Hsub. by apply sublist_nil_r in Hsub.
  - assert (∀ (current_words : list string) (remaining : counter) w ws,
               w :: ws `sublist_of` word :: rest →
               drives_to_zero remaining (w :: ws) = true →
               ∃ w' r, find_loop current_words remaining (word :: rest)
                       = Ok (Some (w' :: r))) as Hloop.
    { intros current_words remaining w ws Hsub Hz. cbn [find_loop].
      destruct (proj1 (find_sound rest) (current_words ++ [word])
                  (subtracted remaining word)) as (o & Ho & _).
      apply sublist_cons_r in Hsub as [Hsub|(ws' & Heq & Hsub)].
      - destruct (IHloop current_words remaining w ws Hsub Hz)
          as (w' & r & Hrest).
        destruct (is_valid_anagram remaining word); [|eauto].
        rewrite subtract_letters_eq. cbn [mbind result_bind].
        rewrite Ho. cbn [mbind result_bind].
        destruct o as [[|w1 r1]|]; eauto.
      - injection Heq as -> ->.
        apply drives_to_zero_cons in Hz as [Hcov Hz].
        rewrite Hcov, subtract_letters_eq. cbn [mbind result_bind].
        destruct (IHfull (current_words ++ [word]) (subtracted remaining word)
                    ws' Hsub Hz) as (w1 & r1 & ->).
        { intros Hnil. apply app_eq_nil in Hnil as [Hnil _].
          by apply app_eq_nil in Hnil as [_ ?]. }
        cbn [mbind result_bind]. eauto. }
    split; [|exact Hloop].
    intros current_words remaining ws Hsub Hz Hne.
    rewrite find_full_match_unfold.
    destruct (bool_decide (remaining = ∅)) eqn:Hrem;
      destruct (bool_decide (current_words ≠ [])) eqn:Hcur; cbn [andb].
    + apply bool_decide_eq_true_1 in Hcur.
      destruct current_words as [|w r]; [done | eauto].
    + apply bool_decide_eq_false_1 in Hcur.
      destruct current_words as [|? ?]; [|by destruct Hcur].
      destruct ws as [|w ws]; [done|]. by eapply Hloop.
    + destruct ws as [|w ws]; [|by eapply Hloop].
      cbn in Hz. congruence.
    + destruct ws as [|w ws]; [|by eapply Hloop].
      cbn in Hz. congruence.
Qed.

(** The search fails exactly when nothing drives the residual to zero. *)
Lemma find_full_match_None_iff (words : list string) (remaining : counter) :
  find_full_match words [] remaining = Ok None
  ↔ ∀ ws, ws `sublist_of` words → ws ≠ [] →
          drives_to_zero remaining ws = false.
Proof.
  split.
  - intros Hnone ws Hsub Hne.
    destruct (drives_to_zero remaining ws) eqn:Hz; [|done].
    destruct (proj1 (find_complete words) [] remaining ws Hsub Hz Hne)
      as (w & r & Hfound).
    congruence.
  - intros Hnone.
    destruct (proj1 (find_sound words) [] remaining) as (o & -> & Hspec).
    destruct o as [r|]; [|done].
    destruct (Hspec r eq_refl) as (Hne & ws & -> & Hsub & Hz).
    rewrite Hnone in Hz; done.
Qed.

Lemma find_full_match_nil (remaining : counter) :
  find_full_match [] [] remaining = Ok None.
Proof.
  cbn [find_full_match].
  rewrite (bool_decide_eq_false_2 ([] ≠ [])) by (intros H; by apply H).
  by rewrite andb_false_r.
Qed.

(** C5: when the full-match search returns a word sequence, the letters of
    the chosen words, counted with multiplicity, are exactly the multiset of
    remaining letters it was given; subtracting the words one after the other
    leaves a residual of total count zero; at least one word is chosen; the
    chosen words are candidates taken in the order of the sorted candidate
    list, each position at most once; and the sentence is built from them. *)
Theorem find_full_match_exact (anagrams : list string)
    (remaining_letters : counter) (sentence_words : list string) :
  find_full_match (sorted length_desc anagrams) [] remaining_letters
  = Ok (Some sentence_words) →
  Counter_of_list (all_chars sentence_words) = remaining_letters
  ∧ (∃ residual,
       for_each subtract_letters remaining_letters sentence_words = Ok residual
       ∧ sum_values residual = 0)
  ∧ sentence_words ≠ []
  ∧ sentence_words `sublist_of` sorted length_desc anagrams
  ∧ generate_sentence anagrams remaining_letters true
    = Ok (construct_sentence sentence_words).
Proof.
  intros Hfind.
  destruct (proj1 (find_sound (sorted length_desc anagrams)) [] remaining_letters)
    as (o & Ho & Hspec).
  rewrite Hfind in Ho. injection Ho as <-.
  destruct (Hspec sentence_words eq_refl) as (Hne & ws & Heq & Hsub & Hz).
  cbn [app] in Heq. subst ws.
  split; [by apply drives_to_zero_letters|].
  split; [exists ∅; split;
          [by apply drives_to_zero_residual | apply sum_values_empty]|].
  split; [done|]. split; [done|].
  unfold generate_sentence. destruct anagrams as [|a anagrams].
  { change (sorted length_desc []) with (@nil string) in Hfind.
    by rewrite find_full_match_nil in Hfind. }
  cbn zeta. rewrite Hfind. cbn [mbind result_bind].
  by destruct sentence_words.
Qed.

Lemma find_full_match_exact_witness :
  Counter_of_list (all_chars ["ox"%string]) = Counter "ox"
  ∧ generate_sentence ["ox"%string] (Counter "ox") true = Ok "Ox."%string.
Proof.
  destruct (find_full_match_exact ["ox"%string] (Counter "ox") ["ox"%string])
    as (Hletters & _ & _ & _ & Hsentence).
  - vm_compute. reflexivity.
  - split; [exact Hletters | exact Hsentence].
Defined.

(** C6, as stated, fails for the empty list of matched words: nothing can
    drive the residual to zero, and the result in full-match mode is the
    sentinel of the partial mode. *)
Lemma generate_sentence_full_match_empty :
  (∀ ws, ws `sublist_of` sorted length_desc [] → ws ≠ [] →
         drives_to_zero (Counter "ox") ws = false)
  ∧ generate_sentence [] (Counter "ox") true = Ok "No sentence possible."%string
  ∧ generate_sentence [] (Counter "ox") true
    ≠ Ok "No full-match sentence possible."%string.
Proof.
  split; [|split; [reflexivity | discriminate]].
  intros ws Hsub Hne. cbn in Hsub. by apply sublist_nil_r in Hsub.
Qed.

(** C6, amended: in full-match mode, when no non-empty run of candidates
    (taken in the order of the sorted candidate list) drives the residual
    multiset to zero, the result is the literal string
    "No full-match sentence possible." for a non-empty list of matched words,
    and "No sentence possible." for the empty list. *)
Theorem generate_sentence_no_full_match (anagrams : list string)
    (remaining_letters : counter) :
  (∀ ws, ws `sublist_of` sorted length_desc anagrams → ws ≠ [] →
         drives_to_zero remaining_letters ws = false) →
  generate_sentence anagrams remaining_letters true
  = Ok (match anagrams with
        | [] => "No sentence possible."
        | _ => "No full-match sentence possible."
        end)%string.
Proof.
  intros Hnone. unfold generate_sentence.
  destruct anagrams as [|a anagrams]; [done|]. cbn zeta.
  destruct (proj1 (find_sound (sorted length_desc (a :: anagrams)))
              [] remaining_letters) as (o & -> & Hspec).
  cbn [mbind result_bind].
  destruct o as [[|w r]|]; [done| |done].
  destruct (Hspec (w :: r) eq_refl) as (_ & ws & Heq & Hsub & Hz).
  cbn [app] in Heq. subst ws.
  rewrite Hnone in Hz; done.
Qed.

Lemma generate_sentence_no_full_match_witness :
  generate_sentence ["o"%string] (Counter "ox") true
  = Ok "No full-match sentence possible."%string.
Proof.
  apply (generate_sentence_no_full_match ["o"%string] (Counter "ox")).
  intros ws Hsub Hne.
  change (sorted length_desc ["o"%string]) with ["o"%string] in Hsub.
  apply sublist_cons_r in Hsub as [Hsub|(ws' & -> & Hsub)];
    apply sublist_nil_r in Hsub; subst; [done|].
  vm_compute. reflexivity.
Defined.

(** ** [generate_sentence], partial mode *)

Section PartialMode.
Implicit Types (remaining used_letters : counter) (used : list ascii)
  (w : string) (c : ascii).

Lemma get_insert m c d v :
  get (<[c := v]> m) d = if decide (c = d) then v else get m d.
Proof. unfold get. rewrite lookup_insert. by case_decide. Qed.

Lemma counter_update_fold word_count keys used_letters c :
  NoDup keys →
  get (foldl (λ m c, <[c := get word_count c + get m c]> m) used_letters keys) c
  = get used_letters c + (if decide (c ∈ keys) then get word_count c else 0).
Proof.
  intros Hnd. revert used_letters.
  induction Hnd as [|d keys Hd Hnd IH]; intros used_letters; cbn [foldl].
  - rewrite decide_False by apply not_elem_of_nil. lia.
  - rewrite IH, get_insert.
    destruct (decide (d = c)) as [->|Hne].
    + rewrite (decide_False (P := c ∈ keys)) by done.
      rewrite (decide_True (P := c ∈ c :: keys)) by left. lia.
    + destruct (decide (c ∈ keys)) as [Hin|Hin].
      * by rewrite decide_True by (by right).
      * rewrite decide_False; [done|].
        intros [?|?]%elem_of_cons; congruence.
Qed.

Lemma counter_update_get used_letters w c :
  get (counter_update used_letters w) c
  = get used_letters c + occ c (chars w).
Proof.
  unfold counter_update, Counter_keys, Counter.
  rewrite counter_update_fold by apply NoDup_distinct.
  rewrite get_Counter_of_list. f_equal.
  case_decide as Hin; [done|].
  rewrite elem_of_distinct in Hin. symmetry. by apply occ_zero.
Qed.

(** The test of the source is the test of the specification. *)
Lemma partial_test_fits remaining used_letters used w :
  (∀ c, get used_letters c = occ c used) →
  forallb (λ char, get used_letters char + get (Counter w) char
                     <=? get remaining char) (Counter_keys w) = true
  ↔ fits remaining used w.
Proof.
  intros Hused. unfold fits, Counter_keys, Counter.
  rewrite forallb_forall, Forall_forall. split.
  - intros H c Hc. specialize (H c).
    rewrite get_Counter_of_list, Hused in H. apply Z.leb_le, H.
    rewrite <-list_elem_of_In, elem_of_distinct. done.
  - intros H c Hc. rewrite <-list_elem_of_In, elem_of_distinct in Hc.
    rewrite get_Counter_of_list, Hused. by apply Z.leb_le, H.
Qed.

(** The loop of the source computes the greedy scan. *)
Lemma partial_loop_greedy remaining available_words sentence_words
    used_letters used :
  (length sentence_words < 3)%nat →
  (∀ c, get used_letters c = occ c used) →
  partial_loop remaining available_words sentence_words used_letters
  = sentence_words
    ++ greedy_scan remaining (3 - length sentence_words) used available_words.
Proof.
  revert sentence_words used_letters used.
  induction available_words as [|w rest IH];
    intros sentence_words used_letters used Hlen Hused.
  { cbn. by rewrite app_nil_r. }
  cbn [partial_loop greedy_scan].
  destruct (3 - length sentence_words)%nat as [|budget] eqn:Hbudget; [lia|].
  pose proof (partial_test_fits remaining used_letters used w Hused) as Htest.
  destruct (decide (fits remaining used w)) as [Hfit|Hfit].
  - rewrite (proj2 Htest Hfit).
    destruct (Nat.leb_spec 3 (length (sentence_words ++ [w]))) as [Hge|Hlt];
      rewrite length_app in *; cbn [length] in *.
    + assert (budget = 0%nat) as -> by lia.
      by destruct rest.
    + rewrite (IH _ _ (used ++ chars w)).
      * rewrite length_app. cbn [length].
        replace (3 - (length sentence_words + 1))%nat with budget by lia.
        by rewrite <-app_assoc.
      * rewrite length_app. cbn [length]. lia.
      * intros c. by rewrite counter_update_get, Hused, occ_app.
  - destruct (forallb _ _) eqn:Hb; [by destruct Hfit; apply Htest|].
    destruct (Nat.leb_spec 3 (length sentence_words)); [lia|].
    rewrite (IH _ _ used) by done. by rewrite Hbudget.
Qed.

Lemma greedy_scan_length remaining budget used candidates :
  (length (greedy_scan remaining budget used candidates) ≤ budget)%nat.
Proof.
  revert budget used.
  induction candidates as [|w rest IH]; intros budget used; cbn; [lia|].
  destruct budget as [|budget]; [done|].
  case_decide; cbn; [|apply IH].
  specialize (IH budget (used ++ chars w)). lia.
Qed.

Lemma greedy_scan_sublist remaining budget used candidates :
  greedy_scan remaining budget used candidates `sublist_of` candidates.
Proof.
  revert budget used.
  induction candidates as [|w rest IH]; intros budget used; cbn; [done|].
  destruct budget as [|budget]; [apply sublist_nil_l|].
  case_decide; [by apply sublist_skip | by apply sublist_cons].
Qed.

(** What is used never exceeds what remains, in any character used. *)
Lemma greedy_scan_within remaining budget used candidates c :
  (∀ d, d ∈ used → occ d used ≤ get remaining d) →
  c ∈ used ++ all_chars (greedy_scan remaining budget used candidates) →
  occ c (used ++ all_chars (greedy_scan remaining budget used candidates))
  ≤ get remaining c.
Proof.
  revert budget used.
  induction candidates as [|w rest IH]; intros budget used Hused; cbn.
  { rewrite app_nil_r. apply Hused. }
  destruct budget as [|budget]; cbn.
  { rewrite app_nil_r. apply Hused. }
  case_decide as Hfit; [|by apply IH].
  cbn [all_chars]. rewrite app_assoc. apply IH.
  intros d Hd. rewrite occ_app.
  destruct (decide (d ∈ chars w)) as [Hin|Hout].
  - unfold fits in Hfit. rewrite Forall_forall in Hfit. by apply Hfit.
  - apply elem_of_app in Hd as [Hd|Hd]; [|done].
    rewrite occ_zero in Hout. rewrite Hout, Z.add_0_r. by apply Hused.
Qed.
End PartialMode.

Lemma length_desc_total (x y : string) :
  length_desc x y = true ∨ length_desc y x = true.
Proof. unfold length_desc. rewrite !Z.leb_le. lia. Qed.

Lemma length_desc_trans (x y z : string) :
  length_desc x y = true → length_desc y z = true → length_desc x z = true.
Proof. unfold length_desc. rewrite !Z.leb_le. lia. Qed.

(** C8: in partial mode the candidates are scanned longest first, words of
    equal length in their original order; the words chosen are those of the
    greedy scan that accepts a word exactly when, for every character of it,
    used plus needed is within the remaining count, adds its letters to the
    used ones, and stops after 3 accepted words; so at most 3 words are
    chosen, in candidate order, and their combined letters never exceed the
    remaining multiset in any character; the sentence is built from them, and
    it is the literal string "No sentence possible." when no word is
    accepted. *)
Theorem partial_mode_greedy (anagrams : list string)
    (remaining_letters : counter) :
  let available_words := sorted length_desc anagrams in
  let sentence_words := partial_loop remaining_letters available_words [] ∅ in
  StronglySorted (λ x y, len y ≤ len x) available_words
  ∧ available_words ≡ₚ anagrams
  ∧ (∀ n, filter (λ w, len w = n) available_words
          = filter (λ w, len w = n) anagrams)
  ∧ sentence_words = greedy_scan remaining_letters 3 [] available_words
  ∧ (length sentence_words ≤ 3)%nat
  ∧ sentence_words `sublist_of` available_words
  ∧ (∀ c, c ∈ all_chars sentence_words →
          occ c (all_chars sentence_words) ≤ get remaining_letters c)
  ∧ (positive_counts remaining_letters →
     ∀ c, occ c (all_chars sentence_words) ≤ get remaining_letters c)
  ∧ generate_sentence anagrams remaining_letters false
    = Ok (construct_sentence sentence_words)
  ∧ (sentence_words = [] →
     generate_sentence anagrams remaining_letters false
     = Ok "No sentence possible."%string).
Proof.
  intros available_words sentence_words.
  assert (sentence_words = greedy_scan remaining_letters 3 [] available_words)
    as Hgreedy.
  { unfold sentence_words.
    rewrite (partial_loop_greedy _ _ _ _ []); [done | cbn; lia |].
    intros c. apply get_empty. }
  assert (∀ c, c ∈ all_chars sentence_words →
               occ c (all_chars sentence_words) ≤ get remaining_letters c)
    as Hwithin.
  { intros c Hc. rewrite Hgreedy in Hc |- *.
    apply (greedy_scan_within remaining_letters 3 [] available_words c);
      [|done].
    by intros d ?%elem_of_nil. }
  assert (generate_sentence anagrams remaining_letters false
          = Ok (construct_sentence sentence_words)) as Hsentence.
  { unfold generate_sentence, sentence_words, available_words.
    by destruct anagrams. }
  split.
  { eapply StronglySorted_weaken;
      [|apply sorted_StronglySorted;
        [apply length_desc_total | apply length_desc_trans]].
    intros x y. unfold length_desc. apply Z.leb_le. }
  split; [apply sorted_Permutation|].
  split.
  { intros n. apply sorted_stable. intros x y Hx Hy.
    unfold length_desc. apply Z.leb_le. lia. }
  split; [done|].
  split; [rewrite Hgreedy; apply greedy_scan_length|].
  split; [rewrite Hgreedy; apply greedy_scan_sublist|].
  split; [done|].
  split.
  { intros Hpos c.
    destruct (decide (c ∈ all_chars sentence_words)) as [Hin|Hout]; [auto|].
    rewrite occ_zero in Hout. rewrite Hout. unfold get.
    destruct (remaining_letters !! c) as [v|] eqn:Hv; [|done].
    apply Hpos in Hv. cbn. lia. }
  split; [done|].
  intros Hnil. by rewrite Hsentence, Hnil.
Qed.

Lemma partial_mode_greedy_witness :
  generate_sentence ["a"; "b"; "cc"; "d"]%string (Counter "abcd") false
  = Ok "A b d."%string
  ∧ ∀ c, occ c (all_chars
                  (partial_loop (Counter "abcd")
                     (sorted length_desc ["a"; "b"; "cc"; "d"]%string) [] ∅))
         ≤ get (Counter "abcd") c.
Proof.
  pose proof (partial_mode_greedy ["a"; "b"; "cc"; "d"]%string (Counter "abcd"))
    as H.
  cbv zeta in H.
  destruct H as (_ & _ & _ & _ & _ & _ & _ & Hpos & Hsentence & _).
  split; [rewrite Hsentence; vm_compute; reflexivity|].
  apply Hpos, Counter_positive.
Defined.

(** ** Further properties: the letter multiset *)

Section LetterMultiset.
Implicit Types (m : counter) (c : ascii) (l : list ascii) (s : string).

Lemma sum_values_Counter_fold l m :
  sum_values (foldl (λ m c, <[c := get m c + 1]> m) m l)
  = sum_values m + Z.of_nat (length l).
Proof.
  revert m. induction l as [|c l IH]; intros m; cbn [foldl length]; [lia|].
  rewrite IH. destruct (m !! c) as [v|] eqn:Hc.
  - rewrite (sum_values_insert _ _ _ v), (get_Some _ _ _ Hc) by done. lia.
  - rewrite sum_values_insert_fresh, (get_None _ _ Hc) by done. lia.
Qed.

Lemma sum_values_Counter s : sum_values (Counter s) = len s.
Proof.
  unfold Counter, Counter_of_list.
  rewrite sum_values_Counter_fold, sum_values_empty, len_chars. lia.
Qed.

Lemma occ_Permutation c l1 l2 : l1 ≡ₚ l2 → occ c l1 = occ c l2.
Proof.
  induction 1 as [|x l1 l2 _ IH|x y l|l1 l2 l3 _ IH1 _ IH2]; cbn [occ];
    [done | by rewrite IH | lia | congruence].
Qed.

Lemma Counter_of_list_Permutation l1 l2 :
  l1 ≡ₚ l2 → Counter_of_list l1 = Counter_of_list l2.
Proof.
  intros Hperm. apply map_eq. intros c.
  rewrite !Counter_of_list_lookup, (occ_Permutation c l1 l2 Hperm).
  destruct (decide (c ∈ l1)) as [Hin|Hout].
  - rewrite decide_True; [done | by rewrite <-Hperm].
  - rewrite decide_False; [done | by rewrite <-Hperm].
Qed.

(** Counting characters decides the sub-multiset relation. *)
Lemma occ_le_submseteq l1 l2 :
  (∀ c, occ c l1 ≤ occ c l2) ↔ l1 ⊆+ l2.
Proof.
  split.
  - revert l2. induction l1 as [|c l1 IH]; intros l2 Hle.
    { apply submseteq_nil_l. }
    assert (c ∈ l2) as Hc.
    { apply occ_pos. specialize (Hle c). rewrite occ_cons_eq in Hle.
      pose proof (occ_nonneg c l1). lia. }
    apply list_elem_of_split in Hc as (k1 & k2 & ->).
    rewrite <-Permutation_middle. apply submseteq_skip, IH.
    intros d. specialize (Hle d).
    rewrite (occ_Permutation d (k1 ++ c :: k2) (c :: k1 ++ k2)) in Hle
      by (by rewrite <-Permutation_middle).
    cbn [occ] in Hle. lia.
  - induction 1 as [|x l1 l2 _ IH|x y l|x l1 l2 _ IH|l1 l2 l3 _ IH1 _ IH2];
      intros c; cbn [occ].
    + lia.
    + specialize (IH c). lia.
    + lia.
    + specialize (IH c). case_decide; lia.
    + specialize (IH1 c). specialize (IH2 c). lia.
Qed.

Lemma sum_values_nonneg m : positive_counts m → 0 ≤ sum_values m.
Proof.
  induction m as [|c v m Hc IH] using map_ind; intros Hpos.
  - by rewrite sum_values_empty.
  - rewrite sum_values_insert_fresh by done.
    assert (0 < v) by (apply (Hpos c); apply lookup_insert_eq).
    assert (0 ≤ sum_values m); [|lia].
    apply IH. intros d w Hd. apply (Hpos d).
    rewrite lookup_insert_ne; [done|]. intros ->. congruence.
Qed.

Lemma sum_values_zero_empty m :
  positive_counts m → sum_values m = 0 → m = ∅.
Proof.
  destruct m as [|c v m Hc _] using map_ind; [done|].
  intros Hpos. rewrite sum_values_insert_fresh by done.
  assert (0 < v) by (apply (Hpos c); apply lookup_insert_eq).
  assert (0 ≤ sum_values m); [|lia].
  apply sum_values_nonneg. intros d w Hd. apply (Hpos d).
  rewrite lookup_insert_ne; [done|]. intros ->. congruence.
Qed.

Lemma get_Counter s c : get (Counter s) c = occ c (chars s).
Proof. apply get_Counter_of_list. Qed.

Lemma append_cons c s1 s2 :
  (String c s1 ++ s2)%string = String c (s1 ++ s2)%string.
Proof. reflexivity. Qed.

Lemma chars_app s1 s2 : chars (s1 ++ s2)%string = chars s1 ++ chars s2.
Proof.
  unfold chars. induction s1 as [|c s1 IH]; [done|].
  rewrite append_cons. cbn [list_ascii_of_string]. by rewrite IH.
Qed.

Lemma lower_idemp s : lower (lower s) = lower s.
Proof.
  induction s as [|c s IH]; [done|]. cbn. by rewrite lower_char_idemp, IH.
Qed.

End LetterMultiset.

(** ** Further properties: exclusions *)

Section Exclusions.
Implicit Types (M : counter) (c : ascii) (ws : list string) (w : string).

(** The multiset left by a run of subtractions, entry by entry. *)
Lemma foldl_subtracted_lookup M ws c :
  foldl subtracted M ws !! c
  = M !! c
    ≫= λ v, if decide (c ∈ all_chars (lower <$> ws))
            then (if 0 <? v - occ c (all_chars (lower <$> ws))
                  then Some (v - occ c (all_chars (lower <$> ws)))
                  else None)
            else Some v.
Proof.
  revert M. induction ws as [|w ws IH]; intros M.
  - cbn [foldl fmap list_fmap all_chars].
    destruct (M !! c); [|done]. cbn.
    rewrite decide_False; [done | apply not_elem_of_nil].
  - cbn [foldl]. rewrite IH, subtracted_lookup, fmap_cons. cbn [all_chars].
    set (A := all_chars (lower <$> ws)).
    rewrite occ_app. unfold lowered, Counter. rewrite get_Counter_of_list.
    pose proof (occ_nonneg c (chars (lower w))) as Hw.
    pose proof (occ_nonneg c A) as HA.
    destruct (M !! c) as [v|]; [|done]. cbn.
    destruct (decide (c ∈ chars (lower w))) as [Hin|Hout];
      destruct (decide (c ∈ A)) as [HinA|HoutA].
    + rewrite decide_True by (apply elem_of_app; by left).
      destruct (Z.ltb_spec 0 (v - occ c (chars (lower w)))); cbn.
      * destruct (Z.ltb_spec 0 (v - occ c (chars (lower w)) - occ c A));
          destruct (Z.ltb_spec 0 (v - (occ c (chars (lower w)) + occ c A)));
          try lia; try done. f_equal. lia.
      * destruct (Z.ltb_spec 0 (v - (occ c (chars (lower w)) + occ c A)));
          [lia | done].
    + rewrite decide_True by (apply elem_of_app; by left).
      rewrite occ_zero in HoutA. rewrite HoutA, Z.add_0_r.
      by destruct (Z.ltb_spec 0 (v - occ c (chars (lower w)))).
    + rewrite decide_True by (apply elem_of_app; by right).
      rewrite occ_zero in Hout. by rewrite Hout, Z.add_0_l.
    + by rewrite decide_False by (by intros [?|?]%elem_of_app).
Qed.

Lemma for_each_subtract_letters M ws :
  for_each subtract_letters M ws = Ok (foldl subtracted M ws).
Proof.
  revert M. induction ws as [|w ws IH]; intros M; [done|].
  cbn [for_each foldl]. rewrite subtract_letters_eq.
  cbn [mbind result_bind]. apply IH.
Qed.

Lemma all_chars_Permutation ws1 ws2 :
  ws1 ≡ₚ ws2 → all_chars ws1 ≡ₚ all_chars ws2.
Proof.
  induction 1 as [|w ws1 ws2 _ IH|w1 w2 ws|ws1 ws2 ws3 _ IH1 _ IH2];
    cbn [all_chars].
  - done.
  - by rewrite IH.
  - rewrite !app_assoc. by rewrite (Permutation_app_comm (chars w2)).
  - by rewrite IH1.
Qed.

Lemma foldl_subtracted_Permutation M ws1 ws2 :
  ws1 ≡ₚ ws2 → foldl subtracted M ws1 = foldl subtracted M ws2.
Proof.
  intros Hperm. apply map_eq. intros c. rewrite !foldl_subtracted_lookup.
  assert (all_chars (lower <$> ws1) ≡ₚ all_chars (lower <$> ws2)) as HA.
  { apply all_chars_Permutation. by rewrite Hperm. }
  rewrite (occ_Permutation c _ _ HA).
  destruct (M !! c) as [v|]; [|done]. cbn.
  destruct (decide (c ∈ all_chars (lower <$> ws1))) as [Hin|Hout].
  - rewrite decide_True; [done | by rewrite <-HA].
  - rewrite decide_False; [done | by rewrite <-HA].
Qed.

Lemma subtracted_chars M w1 w2 :
  chars (lower w1) = chars (lower w2) → subtracted M w1 = subtracted M w2.
Proof.
  intros Heq. apply map_eq. intros c. rewrite !subtracted_lookup.
  unfold lowered, Counter. by rewrite Heq.
Qed.

Lemma find_anagrams_remaining letters (word_list : list string) min_length
    exclude_words :
  (find_anagrams letters word_list min_length exclude_words).2
  = foldl subtracted (Counter (lower (remove_spaces letters)))
          (default [] exclude_words).
Proof. by rewrite find_anagrams_eq. Qed.
End Exclusions.

Lemma remaining_count (s : string) (ws : list string) (c : ascii) :
  get (foldl subtracted (Counter s) ws) c
  = Z.max 0 (occ c (chars s) - occ c (all_chars (lower <$> ws))).
Proof.
  unfold get. rewrite foldl_subtracted_lookup.
  set (A := all_chars (lower <$> ws)).
  unfold Counter. rewrite Counter_of_list_lookup.
  set (l := chars s).
  pose proof (occ_nonneg c l). pose proof (occ_nonneg c A).
  destruct (decide (c ∈ l)) as [Hin|Hout]; cbn.
  - destruct (decide (c ∈ A)) as [HinA|HoutA].
    + destruct (Z.ltb_spec 0 (occ c l - occ c A)); cbn; lia.
    + rewrite occ_zero in HoutA. cbn. lia.
  - rewrite occ_zero in Hout. lia.
Qed.

(** X3: the multiset [find_anagrams] returns holds, for every character, the
    count of the character in the case-folded letters without spaces minus
    its count in the case-folded exclusion words, and nothing when that is
    not positive: an exclusion that asks for more than there is takes what
    there is. *)
Theorem find_anagrams_remaining_count (letters : string)
    (word_list : list string) (min_length : Z)
    (exclude_words : option (list string)) (c : ascii) :
  get (find_anagrams letters word_list min_length exclude_words).2 c
  = Z.max 0 (occ c (chars (lower (remove_spaces letters)))
             - occ c (all_chars (lower <$> default [] exclude_words))).
Proof. rewrite find_anagrams_remaining. apply remaining_count. Qed.

(** X4: the order of the exclusion words does not matter: two exclusion lists
    that are permutations of each other give the same anagrams and the same
    remaining multiset. *)
Theorem find_anagrams_exclusion_order (letters : string)
    (word_list : list string) (min_length : Z)
    (exclude_words exclude_words' : list string) :
  exclude_words ≡ₚ exclude_words' →
  find_anagrams letters word_list min_length (Some exclude_words)
  = find_anagrams letters word_list min_length (Some exclude_words').
Proof.
  intros Hperm. rewrite !find_anagrams_eq. cbn [default].
  by rewrite (foldl_subtracted_Permutation _ _ _ Hperm).
Qed.

Lemma find_anagrams_exclusion_order_witness :
  find_anagrams "eat tea" ["tea"; "at"]%string 1 (Some ["t"; "ea"]%string)
  = find_anagrams "eat tea" ["tea"; "at"]%string 1 (Some ["ea"; "t"]%string).
Proof.
  apply find_anagrams_exclusion_order. apply Permutation_swap.
Defined.

Lemma elem_of_all_chars (c : ascii) (ws : list string) :
  c ∈ all_chars ws ↔ ∃ w, w ∈ ws ∧ c ∈ chars w.
Proof.
  induction ws as [|w ws IH]; cbn [all_chars].
  - split; [by intros ?%elem_of_nil | by intros (w & ?%elem_of_nil & _)].
  - rewrite elem_of_app, IH. split.
    + intros [Hc|(w' & Hw' & Hc)].
      * exists w. split; [left | done].
      * exists w'. split; [by right | done].
    + intros (w' & [->|Hw']%elem_of_cons & Hc); [by left|].
      right. eauto.
Qed.

Lemma chars_join (ws : list string) : chars (join "" ws) = all_chars ws.
Proof.
  induction ws as [|w ws IH]; [done|].
  destruct ws as [|w' ws].
  - cbn. by rewrite app_nil_r.
  - change (join "" (w :: w' :: ws))
      with (w ++ "" ++ join "" (w' :: ws))%string.
    rewrite chars_app. cbn [all_chars]. f_equal. exact IH.
Qed.

(** X5: for lower-case words, subtracting them one after the other is
    subtracting their concatenation in one call. *)
Theorem subtract_letters_sequence (letter_count : counter)
    (words : list string) :
  (∀ w, w ∈ words → lower w = w) →
  for_each subtract_letters letter_count words
  = subtract_letters letter_count (join "" words).
Proof.
  intros Hlow.
  assert (lower <$> words = words) as Hwords.
  { induction words as [|w ws IH]; [done|].
    rewrite fmap_cons, (Hlow w) by left.
    f_equal. apply IH. intros w' Hw'. apply Hlow. by right. }
  assert (lower (join "" words) = join "" words) as Hjoin.
  { apply lower_fixed. intros c. rewrite chars_join.
    intros (w & Hw & Hc)%elem_of_all_chars.
    rewrite <-(Hlow w Hw) in Hc. by apply lower_chars_fixed in Hc. }
  rewrite for_each_subtract_letters, subtract_letters_eq. f_equal.
  apply map_eq. intros c.
  rewrite foldl_subtracted_lookup, subtracted_lookup, Hwords, Hjoin.
  unfold lowered, Counter.
  by rewrite get_Counter_of_list, chars_join.
Qed.

Lemma subtract_letters_sequence_witness :
  for_each subtract_letters (Counter "eat tea") ["at"; "e"]%string
  = subtract_letters (Counter "eat tea") (join "" ["at"; "e"]%string).
Proof.
  apply subtract_letters_sequence.
  intros w [->|[->|?%elem_of_nil]%elem_of_cons]%elem_of_cons; done.
Defined.

(** ** Further properties: covering *)

Section Covering.
Implicit Types (M : counter) (c : ascii) (w : string).

Lemma subtract_loop_positive word word_count keys (remaining remaining' : counter) :
  NoDup keys →
  positive_counts remaining →
  for_each (subtract_step word word_count) remaining keys = Ok remaining' →
  positive_counts remaining'.
Proof.
  intros Hnd Hpos Hrun.
  destruct (subtract_loop_ok word word_count keys remaining Hnd)
    as (r & Hr & Hlookup).
  rewrite Hrun in Hr. injection Hr as <-.
  intros c v. rewrite Hlookup.
  destruct (remaining !! c) as [u|] eqn:Hu; [|by case_decide].
  case_decide; cbn.
  - unfold lowered. destruct (Z.ltb_spec 0 (u - get word_count c)); [|done].
    by intros [= <-].
  - intros [= <-]. by apply (Hpos c).
Qed.

Lemma covered_length M w :
  positive_counts M → is_valid_anagram M w = true → len w ≤ sum_values M.
Proof.
  intros Hpos Hcov. rewrite is_valid_anagram_iff in Hcov.
  destruct (subtract_loop_sum w (Counter w) (Counter_keys w) M)
    as (R & HR & Hsum).
  { apply NoDup_distinct. }
  { intros c Hc. unfold Counter_keys in Hc. rewrite elem_of_distinct in Hc.
    specialize (Hcov c Hc). rewrite occ_pos in Hc.
    rewrite get_Counter.
    destruct (M !! c) as [v|] eqn:Hv.
    - exists v. by rewrite (get_Some _ _ _ Hv) in Hcov.
    - rewrite (get_None _ _ Hv) in Hcov. lia. }
  assert (0 ≤ sum_values R) as HR0.
  { apply sum_values_nonneg.
    by apply (subtract_loop_positive w (Counter w) (Counter_keys w) M R);
      [apply NoDup_distinct|..]. }
  assert (sum_over (get (Counter w)) (Counter_keys w) = len w) as Hlen.
  { unfold Counter_keys. rewrite len_chars, <-sum_over_distinct.
    apply sum_over_ext. intros c _. apply get_Counter. }
  lia.
Qed.

(** What a covered lower-case word leaves of each count. *)
Lemma get_subtracted_covered M w c :
  lower w = w → is_valid_anagram M w = true →
  get (subtracted M w) c = get M c - occ c (chars w).
Proof.
  intros Hlow Hcov. rewrite is_valid_anagram_iff in Hcov.
  unfold get at 1. rewrite subtracted_lookup, Hlow.
  unfold lowered. rewrite get_Counter.
  destruct (decide (c ∈ chars w)) as [Hin|Hout].
  - specialize (Hcov c Hin).
    destruct (M !! c) as [v|] eqn:Hv; cbn.
    + rewrite (get_Some _ _ _ Hv) in Hcov |- *.
      destruct (Z.ltb_spec 0 (v - occ c (chars w))); cbn; lia.
    + rewrite (get_None _ _ Hv) in Hcov |- *.
      rewrite occ_pos in Hin. lia.
  - rewrite occ_zero in Hout. rewrite Hout, Z.sub_0_r.
    unfold get. by destruct (M !! c).
Qed.
End Covering.

Lemma covers_Counter_submseteq (s word : string) :
  is_valid_anagram (Counter s) word = true ↔ chars word ⊆+ chars s.
Proof.
  rewrite is_valid_anagram_iff, <-occ_le_submseteq. split.
  - intros H c. destruct (decide (c ∈ chars word)) as [Hin|Hout].
    + rewrite <-(get_Counter s). by apply H.
    + rewrite occ_zero in Hout. rewrite Hout. apply occ_nonneg.
  - intros H c _. rewrite get_Counter. apply H.
Qed.

(** X6: a word is accepted against the letters [s] exactly when its
    characters, with their multiplicity, can be taken from the characters of
    [s]: the list of its characters is a sub-multiset of the list of the
    characters of [s]. *)
Theorem is_valid_anagram_submseteq (s word : string) :
  is_valid_anagram (Counter s) word = true ↔ chars word ⊆+ chars s.
Proof.
  rewrite <-occ_le_submseteq, is_valid_anagram_iff.
  setoid_rewrite get_Counter. split; [|by auto].
  intros H c. destruct (decide (c ∈ chars word)) as [Hin|Hout]; [by auto|].
  rewrite occ_zero in Hout. rewrite Hout. apply occ_nonneg.
Qed.

(** X7: against a multiset with strictly positive counts the length test of
    the matching loop is redundant: a covered word is never longer than the
    total count, so a word is accepted exactly when it is covered and has the
    minimum length. *)
Theorem accepts_without_length_test (letters_count : counter)
    (min_length : Z) (word : string) :
  positive_counts letters_count →
  (is_valid_anagram letters_count word = true →
   len word ≤ sum_values letters_count)
  ∧ accepts letters_count min_length word
    = (min_length <=? len word) && is_valid_anagram letters_count word.
Proof.
  intros Hpos.
  pose proof (covered_length letters_count word Hpos) as Hlen.
  split; [exact Hlen|]. unfold accepts.
  destruct (is_valid_anagram letters_count word).
  - rewrite (proj2 (Z.leb_le _ _) (Hlen eq_refl)).
    by rewrite andb_true_l.
  - by rewrite !andb_false_r.
Qed.

Lemma accepts_without_length_test_witness :
  accepts (Counter "eat tea") 4 "tea"
  = (4 <=? len "tea") && is_valid_anagram (Counter "eat tea") "tea".
Proof.
  apply (accepts_without_length_test (Counter "eat tea") 4 "tea").
  apply Counter_positive.
Defined.

(** X20: after a covered lower-case word [w] is subtracted, a word [w'] is
    covered by the residual exactly when the base covers [w] followed by
    [w']. *)
Theorem is_valid_anagram_residual (M : counter) (w w' : string) :
  lower w = w →
  is_valid_anagram M w = true →
  is_valid_anagram (subtracted M w) w' = is_valid_anagram M (w ++ w').
Proof.
  intros Hlow Hcov. apply Bool.eq_iff_eq_true.
  rewrite !is_valid_anagram_iff. pose proof Hcov as Hcov'.
  rewrite is_valid_anagram_iff in Hcov'. split.
  - intros H c Hc. rewrite chars_app, occ_app.
    rewrite chars_app in Hc.
    destruct (decide (c ∈ chars w')) as [Hin|Hout].
    + specialize (H c Hin).
      rewrite (get_subtracted_covered _ _ _ Hlow Hcov) in H. lia.
    + apply elem_of_app in Hc as [Hc|Hc]; [|done].
      rewrite occ_zero in Hout. rewrite Hout, Z.add_0_r. by apply Hcov'.
  - intros H c Hc. rewrite (get_subtracted_covered _ _ _ Hlow Hcov).
    specialize (H c). rewrite chars_app, occ_app in H.
    assert (c ∈ chars w ++ chars w') as Hin by (apply elem_of_app; by right).
    specialize (H Hin). lia.
Qed.

Lemma is_valid_anagram_residual_witness :
  is_valid_anagram (subtracted (Counter "eat tea") "tea") "eat"
  = is_valid_anagram (Counter "eat tea") ("tea" ++ "eat").
Proof.
  apply (is_valid_anagram_residual (Counter "eat tea") "tea" "eat");
    reflexivity.
Defined.

Lemma subtracted_Counter_app (w : string) (l : list ascii) :
  lower w = w →
  subtracted (Counter_of_list (chars w ++ l)) w = Counter_of_list l.
Proof.
  intros Hlow. apply map_eq. intros c.
  rewrite subtracted_lookup, Hlow. unfold Counter, lowered.
  rewrite !Counter_of_list_lookup, get_Counter_of_list, occ_app.
  pose proof (occ_nonneg c l) as Hl.
  destruct (decide (c ∈ chars w)) as [Hw|Hw].
  - rewrite decide_True by (apply elem_of_app; by left). cbn.
    destruct (decide (c ∈ l)) as [Hin|Hout].
    + rewrite occ_pos in Hin.
      destruct (Z.ltb_spec 0 (occ c (chars w) + occ c l - occ c (chars w)));
        [f_equal|]; lia.
    + rewrite occ_zero in Hout.
      destruct (Z.ltb_spec 0 (occ c (chars w) + occ c l - occ c (chars w)));
        [lia | done].
  - destruct (decide (c ∈ l)) as [Hin|Hout].
    + rewrite decide_True by (apply elem_of_app; by right). cbn.
      rewrite occ_zero in Hw. f_equal. lia.
    + by rewrite decide_False by (by intros [?|?]%elem_of_app).
Qed.

Lemma covers_Counter_app (w : string) (l : list ascii) :
  is_valid_anagram (Counter_of_list (chars w ++ l)) w = true.
Proof.
  apply is_valid_anagram_iff. intros c _.
  rewrite get_Counter_of_list, occ_app. pose proof (occ_nonneg c l). lia.
Qed.

(** X21: taking the letters of a lower-case word [a] out of the letters of
    [a] followed by [b] succeeds and leaves exactly the letters of [b]. *)
Theorem subtract_letters_Counter_app (a b : string) :
  lower a = a →
  is_valid_anagram (Counter (a ++ b)) a = true
  ∧ subtract_letters (Counter (a ++ b)) a = Ok (Counter b).
Proof.
  intros Hlow. unfold Counter. rewrite chars_app. split.
  - apply covers_Counter_app.
  - rewrite subtract_letters_eq. f_equal.
    by apply subtracted_Counter_app.
Qed.

Lemma subtract_letters_Counter_app_witness :
  subtract_letters (Counter ("tea" ++ "cup")) "tea" = Ok (Counter "cup").
Proof.
  apply (subtract_letters_Counter_app "tea" "cup"). reflexivity.
Defined.

(** ** Further properties: the matcher *)

Section Matcher.
Implicit Types (M : counter) (c : ascii) (ws : list string) (w : string).

Lemma subtracted_lowercase M w :
  lowercase_keys M → lowercase_keys (subtracted M w).
Proof.
  intros Hkeys c [v Hv]. apply Hkeys.
  rewrite subtracted_lookup in Hv.
  destruct (M !! c); [eauto | done].
Qed.

Lemma foldl_subtracted_invariant M ws :
  positive_counts M → lowercase_keys M →
  positive_counts (foldl subtracted M ws)
  ∧ lowercase_keys (foldl subtracted M ws).
Proof.
  revert M. induction ws as [|w ws IH]; intros M Hpos Hkeys; [done|].
  cbn [foldl]. apply IH; [by apply subtracted_positive|].
  by apply subtracted_lowercase.
Qed.

Lemma remaining_invariant (s : string) ws :
  positive_counts (foldl subtracted (Counter (lower s)) ws)
  ∧ lowercase_keys (foldl subtracted (Counter (lower s)) ws).
Proof.
  apply foldl_subtracted_invariant;
    [apply Counter_positive | apply Counter_lower_lowercase].
Qed.

(** What the exclusions leave covers no more than the letters do. *)
Lemma remaining_covers (s : string) ws w :
  is_valid_anagram (foldl subtracted (Counter s) ws) w = true →
  is_valid_anagram (Counter s) w = true.
Proof.
  rewrite !is_valid_anagram_iff. intros H c Hc. specialize (H c Hc).
  rewrite remaining_count in H. rewrite get_Counter.
  pose proof (occ_nonneg c (all_chars (lower <$> ws))).
  rewrite occ_pos in Hc. lia.
Qed.

(** A list that is sorted already is left as it is. *)
Lemma sorted_fixed {A} (le : A → A → bool) (l : list A) :
  StronglySorted (λ x y, le x y = true) l → sorted le l = l.
Proof.
  induction 1 as [|x l Hl IH Hx]; [done|].
  cbn [sorted foldr]. fold (sorted le l). rewrite IH.
  destruct l as [|y l]; [done|]. cbn [insert_sorted].
  by rewrite (Forall_inv Hx).
Qed.

Lemma find_anagrams_length_sorted letters (word_list : list string)
    min_length exclude_words :
  StronglySorted (λ x y, length_desc x y = true)
    (find_anagrams letters word_list min_length exclude_words).1.
Proof.
  rewrite find_anagrams_eq. cbn zeta. cbn [fst].
  eapply StronglySorted_weaken;
    [|apply sorted_StronglySorted;
      [apply anagram_key_le_total | apply anagram_key_le_trans]].
  intros x y. cbn beta. rewrite anagram_key_le_order.
  unfold anagram_order, length_desc. rewrite Z.leb_le. lia.
Qed.

Lemma elem_of_find_anagrams letters (word_list : list string) min_length
    exclude_words w :
  w ∈ (find_anagrams letters word_list min_length exclude_words).1
  ↔ w ∈ word_list
    ∧ accepts (find_anagrams letters word_list min_length exclude_words).2
              min_length w.
Proof.
  rewrite find_anagrams_eq. cbn zeta. cbn [fst snd].
  rewrite elem_of_sorted, list_elem_of_filter. tauto.
Qed.
End Matcher.

(** X1: with no exclusion, the total count of the multiset [find_anagrams]
    works with, the upper bound on the length of a match, is the number of
    characters of the case-folded letters without spaces. *)
Theorem find_anagrams_total (letters : string) (word_list : list string)
    (min_length : Z) :
  sum_values (find_anagrams letters word_list min_length None).2
  = len (lower (remove_spaces letters)).
Proof.
  rewrite find_anagrams_remaining. cbn [default foldl].
  apply sum_values_Counter.
Qed.

(** X2: the result depends on the letters only through their multiset: two
    letter strings whose case-folded characters other than spaces are
    permutations of each other give the same anagrams and the same remaining
    multiset. *)
Theorem find_anagrams_letters_multiset (letters letters' : string)
    (word_list : list string) (min_length : Z)
    (exclude_words : option (list string)) :
  chars (lower (remove_spaces letters))
  ≡ₚ chars (lower (remove_spaces letters')) →
  find_anagrams letters word_list min_length exclude_words
  = find_anagrams letters' word_list min_length exclude_words.
Proof.
  intros Hperm. rewrite !find_anagrams_eq. unfold Counter.
  by rewrite (Counter_of_list_Permutation _ _ Hperm).
Qed.

Lemma find_anagrams_letters_multiset_witness :
  find_anagrams "Ta" ["at"; "a"]%string 1 None
  = find_anagrams "a t" ["at"; "a"]%string 1 None.
Proof.
  apply find_anagrams_letters_multiset.
  change (["t"; "a"]%char ≡ₚ ["a"; "t"]%char). apply Permutation_swap.
Defined.

(** X8: when the exclusion words can be taken from the letters (their
    case-folded characters are a sub-multiset of the case-folded letters other
    than spaces), a word is matched exactly when it is in the word list, has
    the minimum length, and its characters together with those of the
    exclusion words can be taken from the letters. *)
Theorem find_anagrams_submseteq (letters : string) (word_list : list string)
    (min_length : Z) (exclude_words : option (list string)) (word : string) :
  all_chars (lower <$> default [] exclude_words)
  ⊆+ chars (lower (remove_spaces letters)) →
  word ∈ (find_anagrams letters word_list min_length exclude_words).1
  ↔ word ∈ word_list
    ∧ min_length ≤ len word
    ∧ chars word ++ all_chars (lower <$> default [] exclude_words)
      ⊆+ chars (lower (remove_spaces letters)).
Proof.
  intros Hex. rewrite <-occ_le_submseteq in Hex.
  rewrite elem_of_find_anagrams, find_anagrams_remaining.
  set (s := lower (remove_spaces letters)) in *.
  set (A := all_chars (lower <$> default [] exclude_words)) in *.
  pose proof (remaining_invariant (remove_spaces letters)
                (default [] exclude_words)) as [Hpos _].
  fold s in Hpos.
  assert (is_valid_anagram (foldl subtracted (Counter s)
                              (default [] exclude_words)) word = true
          ↔ chars word ++ A ⊆+ chars s) as Hcov.
  { rewrite is_valid_anagram_iff, <-occ_le_submseteq.
    setoid_rewrite remaining_count. fold A. setoid_rewrite occ_app. split.
    - intros H c. specialize (Hex c).
      destruct (decide (c ∈ chars word)) as [Hin|Hout].
      + specialize (H c Hin). lia.
      + rewrite occ_zero in Hout. lia.
    - intros H c _. specialize (H c). lia. }
  rewrite accepts_iff, Hcov. split; [tauto|].
  intros (Hin & Hmin & Hsub). split; [done|]. split; [done|].
  split; [done|]. apply covered_length; [done | by apply Hcov].
Qed.

Lemma find_anagrams_submseteq_witness :
  "c"%string ∈ (find_anagrams "cat" ["c"; "at"]%string 1
                  (Some ["at"%string])).1.
Proof.
  apply (find_anagrams_submseteq "cat" ["c"; "at"]%string 1
           (Some ["at"%string]) "c").
  - change (["a"; "t"]%char ⊆+ ["c"; "a"; "t"]%char).
    apply submseteq_cons, reflexivity.
  - split; [by left|]. split; [done|].
    change (["c"; "a"; "t"]%char ⊆+ ["c"; "a"; "t"]%char). reflexivity.
Defined.

(** X9: excluding words never adds a match: every word matched with an
    exclusion list is matched with none. *)
Theorem find_anagrams_exclusion_shrinks (letters : string)
    (word_list : list string) (min_length : Z)
    (exclude_words : option (list string)) (word : string) :
  word ∈ (find_anagrams letters word_list min_length exclude_words).1 →
  word ∈ (find_anagrams letters word_list min_length None).1.
Proof.
  rewrite !elem_of_find_anagrams, !find_anagrams_remaining, !accepts_iff.
  cbn [default foldl].
  intros (Hin & Hcov & Hmin & _). apply remaining_covers in Hcov.
  split; [done|]. split; [done|]. split; [done|].
  apply covered_length; [apply Counter_positive | done].
Qed.

Lemma find_anagrams_exclusion_shrinks_witness :
  "c"%string ∈ (find_anagrams "cat" ["c"; "at"]%string 1 None).1.
Proof.
  apply (find_anagrams_exclusion_shrinks "cat" ["c"; "at"]%string 1
           (Some ["at"%string]) "c").
  vm_compute. by left.
Defined.

(** X10: the anagram list is a sub-multiset of the word list: a word is
    matched at most as often as it is listed, so a word list without
    repetition gives matches without repetition. *)
Theorem find_anagrams_no_repetition (letters : string)
    (word_list : list string) (min_length : Z)
    (exclude_words : option (list string)) :
  (find_anagrams letters word_list min_length exclude_words).1 ⊆+ word_list
  ∧ (NoDup word_list →
     NoDup (find_anagrams letters word_list min_length exclude_words).1).
Proof.
  rewrite find_anagrams_eq. cbn zeta. cbn [fst]. split.
  - rewrite sorted_Permutation. apply sublist_submseteq, sublist_filter.
  - intros Hnd. rewrite sorted_Permutation. by apply NoDup_filter.
Qed.

Lemma find_anagrams_no_repetition_witness :
  NoDup (find_anagrams "cat" ["c"; "at"; "tac"]%string 1 None).1.
Proof.
  apply (find_anagrams_no_repetition "cat" ["c"; "at"; "tac"]%string 1 None).
  repeat (apply NoDup_cons; split;
          [intros Hin;
           repeat (apply elem_of_cons in Hin as [Heq|Hin]; [discriminate Heq|]);
           by apply elem_of_nil in Hin|]).
  apply NoDup_nil_2.
Defined.

Lemma lower_char_space (d : ascii) : lower_char d = " "%char → d = " "%char.
Proof. destruct d as [[] [] [] [] [] [] [] []]; by vm_compute. Qed.

Lemma space_not_in_remove_spaces (s : string) :
  " "%char ∉ chars (remove_spaces s).
Proof.
  induction s as [|c s IH]; cbn [remove_spaces].
  { apply not_elem_of_nil. }
  destruct (Ascii.eqb_spec c " ") as [->|Hne]; [done|].
  change (chars (String c (remove_spaces s)))
    with (c :: chars (remove_spaces s)).
  intros [?|?]%elem_of_cons; [congruence | done].
Qed.

Lemma space_not_in_letters (letters : string) :
  " "%char ∉ chars (lower (remove_spaces letters)).
Proof.
  rewrite chars_lower. intros (d & Hd & Hin)%list_elem_of_fmap.
  symmetry in Hd. apply lower_char_space in Hd as ->.
  by apply space_not_in_remove_spaces in Hin.
Qed.

(** X11: the multiset [find_anagrams] returns is a letter multiset of the
    data model, whatever the inputs: its counts are strictly positive, its
    keys are case-folded characters other than the space, and no count
    exceeds the number of occurrences in the letters. *)
Theorem find_anagrams_remaining_invariant (letters : string)
    (word_list : list string) (min_length : Z)
    (exclude_words : option (list string)) :
  let M := (find_anagrams letters word_list min_length exclude_words).2 in
  positive_counts M
  ∧ lowercase_keys M
  ∧ M !! " "%char = None
  ∧ ∀ c, get M c ≤ occ c (chars (lower (remove_spaces letters))).
Proof.
  cbn zeta. rewrite find_anagrams_remaining.
  destruct (remaining_invariant (remove_spaces letters)
              (default [] exclude_words)) as [Hpos Hkeys].
  split; [done|]. split; [done|].
  assert (∀ c, get (foldl subtracted (Counter (lower (remove_spaces letters)))
                      (default [] exclude_words)) c
               ≤ occ c (chars (lower (remove_spaces letters)))) as Hle.
  { intros c. rewrite remaining_count.
    pose proof (occ_nonneg c (chars (lower (remove_spaces letters)))).
    pose proof (occ_nonneg c (all_chars (lower <$> default [] exclude_words))).
    lia. }
  split; [|done].
  destruct (_ !! " "%char) as [v|] eqn:Hv; [|done].
  specialize (Hle " "%char). rewrite (get_Some _ _ _ Hv) in Hle.
  apply Hpos in Hv.
  pose proof (space_not_in_letters letters) as Hsp.
  rewrite occ_zero in Hsp. lia.
Qed.

(** X12: a minimum length above the number of characters of the
    case-folded letters without spaces gives no match, whatever the word list
    and the exclusions; in particular letters made of spaces only match
    nothing for a minimum length of 1. *)
Theorem find_anagrams_too_short (letters : string) (word_list : list string)
    (min_length : Z) (exclude_words : option (list string)) :
  len (lower (remove_spaces letters)) < min_length →
  (find_anagrams letters word_list min_length exclude_words).1 = [].
Proof.
  intros Hshort. apply elem_of_nil_inv. intros word.
  rewrite elem_of_find_anagrams, find_anagrams_remaining, accepts_iff.
  intros (_ & Hcov & Hmin & _). apply remaining_covers in Hcov.
  apply covered_length in Hcov; [|apply Counter_positive].
  rewrite sum_values_Counter in Hcov. lia.
Qed.

Lemma find_anagrams_too_short_witness :
  (find_anagrams "   " [""; "a"]%string 1 (Some ["a"%string])).1 = [].
Proof.
  apply find_anagrams_too_short. vm_compute. reflexivity.
Defined.

(** X13: the anagram list [find_anagrams] returns is sorted by decreasing
    length already, so the sort [generate_sentence] starts with leaves it as
    it is: the candidates are scanned in the order they were reported. *)
Theorem generate_sentence_keeps_order (letters : string)
    (word_list : list string) (min_length : Z)
    (exclude_words : option (list string)) :
  sorted length_desc
    (find_anagrams letters word_list min_length exclude_words).1
  = (find_anagrams letters word_list min_length exclude_words).1.
Proof. apply sorted_fixed, find_anagrams_length_sorted. Qed.

(** ** Further properties: the sentence *)

Section Sentence.
Implicit Types (M : counter) (ws : list string) (w : string).

Lemma subtracted_total M w :
  lower w = w → is_valid_anagram M w = true →
  sum_values (subtracted M w) = sum_values M - len w.
Proof.
  intros Hlow Hcov. rewrite is_valid_anagram_iff in Hcov.
  destruct (subtract_loop_sum w (Counter w) (Counter_keys w) M)
    as (R & HR & Hsum).
  { apply NoDup_distinct. }
  { intros c Hc. unfold Counter_keys in Hc. rewrite elem_of_distinct in Hc.
    specialize (Hcov c Hc). rewrite occ_pos in Hc. rewrite get_Counter.
    destruct (M !! c) as [v|] eqn:Hv.
    - exists v. by rewrite (get_Some _ _ _ Hv) in Hcov.
    - rewrite (get_None _ _ Hv) in Hcov. lia. }
  pose proof (subtract_letters_eq M w) as Heq.
  unfold subtract_letters in Heq. rewrite Hlow, HR in Heq.
  injection Heq as <-. rewrite Hsum. f_equal.
  unfold Counter_keys. rewrite len_chars, <-sum_over_distinct.
  apply sum_over_ext. intros c _. apply get_Counter.
Qed.

(** Lower-case words drive their own letters to zero. *)
Lemma letters_drive_to_zero ws :
  (∀ w, w ∈ ws → lower w = w) →
  drives_to_zero (Counter_of_list (all_chars ws)) ws = true.
Proof.
  induction ws as [|w ws IH]; intros Hlow.
  - cbn. by apply bool_decide_eq_true_2.
  - cbn [all_chars]. apply drives_to_zero_cons.
    split; [apply covers_Counter_app|].
    rewrite subtracted_Counter_app by (apply Hlow; left).
    apply IH. intros w' Hw'. apply Hlow. by right.
Qed.

(** The first candidate that fits alone is the first word of the partial
    sentence. *)
Lemma partial_loop_head M w ws :
  is_valid_anagram M w = true →
  ∃ more, partial_loop M (w :: ws) [] ∅ = w :: more.
Proof.
  intros Hcov.
  rewrite (partial_loop_greedy _ _ _ _ []);
    [|cbn; lia | intros c; apply get_empty].
  cbn [app length greedy_scan]. change (3 - 0)%nat with 3%nat. cbn iota.
  rewrite decide_True; [eauto|].
  unfold fits. rewrite Forall_forall. intros c Hc. cbn [occ].
  rewrite is_valid_anagram_iff in Hcov. specialize (Hcov c Hc). lia.
Qed.

Lemma find_full_match_whole M w ws :
  is_valid_anagram M w = true → subtracted M w = ∅ →
  find_full_match (w :: ws) [] M = Ok (Some [w]).
Proof.
  intros Hcov Hempty. rewrite find_full_match_unfold.
  rewrite (bool_decide_eq_false_2 ([] ≠ [])) by (intros H; by apply H).
  rewrite andb_false_r. cbn [find_loop].
  rewrite Hcov, subtract_letters_eq, Hempty. cbn [mbind result_bind app].
  rewrite find_full_match_unfold.
  rewrite !bool_decide_eq_true_2 by done. reflexivity.
Qed.
End Sentence.

(** X14: in partial mode, for the anagrams and the multiset [find_anagrams]
    returns, the sentence starts with the first anagram reported (a longest
    one) whenever there is an anagram: the greedy scan accepts it. *)
Theorem partial_sentence_starts_with_first (letters : string)
    (word_list : list string) (min_length : Z)
    (exclude_words : option (list string))
    (a : string) (rest : list string) (M : counter) :
  find_anagrams letters word_list min_length exclude_words = (a :: rest, M) →
  ∃ more,
    partial_loop M (sorted length_desc (a :: rest)) [] ∅ = a :: more
    ∧ generate_sentence (a :: rest) M false
      = Ok (construct_sentence (a :: more)).
Proof.
  intros Hfind.
  pose proof (find_anagrams_length_sorted letters word_list min_length
                exclude_words) as Hsorted.
  pose proof (elem_of_find_anagrams letters word_list min_length
                exclude_words a) as Ha.
  rewrite Hfind in Hsorted, Ha. cbn [fst snd] in Hsorted, Ha.
  apply sorted_fixed in Hsorted.
  assert (is_valid_anagram M a = true) as Hcov.
  { apply (accepts_iff M min_length a), Ha. left. }
  destruct (partial_loop_head M a rest Hcov) as (more & Hmore).
  exists more. unfold generate_sentence. by rewrite Hsorted, Hmore.
Qed.

Lemma partial_sentence_starts_with_first_witness :
  ∃ more,
    partial_loop (Counter "listen")
      (sorted length_desc ["enlist"; "silent"; "tin"]%string) [] ∅
    = "enlist"%string :: more
    ∧ generate_sentence ["enlist"; "silent"; "tin"]%string
        (Counter "listen") false
      = Ok (construct_sentence ("enlist"%string :: more)).
Proof.
  apply (partial_sentence_starts_with_first "Listen"
           ["silent"; "tin"; "enlist"]%string 1 None).
  vm_compute. reflexivity.
Defined.

(** X15: in full-match mode, when some anagram [find_anagrams] returns uses
    all the remaining letters (its length is the total count), the sentence
    is the first anagram alone, capitalised and followed by a period. *)
Theorem full_match_perfect_anagram (letters : string)
    (word_list : list string) (min_length : Z)
    (exclude_words : option (list string))
    (anagrams : list string) (M : counter) (word : string) :
  find_anagrams letters word_list min_length exclude_words = (anagrams, M) →
  word ∈ anagrams →
  len word = sum_values M →
  ∃ a rest,
    anagrams = a :: rest
    ∧ len a = sum_values M
    ∧ generate_sentence anagrams M true = Ok (capitalize a ++ ".")%string.
Proof.
  intros Hfind Hword Hlen.
  pose proof (find_anagrams_length_sorted letters word_list min_length
                exclude_words) as Hsorted.
  pose proof (elem_of_find_anagrams letters word_list min_length
                exclude_words) as Hin.
  pose proof (find_anagrams_remaining letters word_list min_length
                exclude_words) as HM.
  rewrite Hfind in Hsorted, Hin, HM. cbn [fst snd] in Hsorted, Hin, HM.
  destruct (remaining_invariant (remove_spaces letters)
              (default [] exclude_words)) as [Hpos Hkeys].
  rewrite <-HM in Hpos, Hkeys. clear HM.
  destruct anagrams as [|a rest]; [by apply elem_of_nil in Hword|].
  exists a, rest. split; [done|].
  assert (accepts M min_length a) as Ha by (apply Hin; left).
  apply accepts_iff in Ha as (Hcov & _ & Hle).
  assert (len a = sum_values M) as Hlena.
  { apply elem_of_cons in Hword as [->|Hword]; [done|].
    apply StronglySorted_inv in Hsorted as [_ Hall].
    rewrite Forall_forall in Hall. specialize (Hall word Hword).
    unfold length_desc in Hall. apply Z.leb_le in Hall. lia. }
  split; [done|].
  assert (subtracted M a = ∅) as Hempty.
  { apply sum_values_zero_empty; [by apply subtracted_positive|].
    rewrite subtracted_total; [lia | by eapply covered_lower | done]. }
  unfold generate_sentence. rewrite (sorted_fixed _ _ Hsorted).
  by rewrite (find_full_match_whole M a rest Hcov Hempty).
Qed.

Lemma full_match_perfect_anagram_witness :
  ∃ a rest,
    ["enlist"; "silent"; "tin"]%string = a :: rest
    ∧ len a = sum_values (Counter "listen")
    ∧ generate_sentence ["enlist"; "silent"; "tin"]%string
        (Counter "listen") true
      = Ok (capitalize a ++ ".")%string.
Proof.
  apply (full_match_perfect_anagram "Listen"
           ["silent"; "tin"; "enlist"]%string 1 None _ _ "silent").
  - vm_compute. reflexivity.
  - right. left.
  - reflexivity.
Defined.

(** X16: [generate_sentence] never raises, in either mode and for every
    list of words and every multiset: the [ValueError] of [subtract_letters]
    cannot escape from the search. *)
Theorem generate_sentence_never_raises (anagrams : list string)
    (remaining_letters : counter) (full_match : bool) :
  ∃ text, generate_sentence anagrams remaining_letters full_match = Ok text.
Proof.
  unfold generate_sentence.
  destruct anagrams as [|a anagrams]; [eauto|].
  destruct full_match; [|eauto]. cbn zeta.
  destruct (proj1 (find_sound (sorted length_desc (a :: anagrams)))
              [] remaining_letters) as (o & -> & _).
  cbn [mbind result_bind]. destruct o as [[|w r]|]; eauto.
Qed.

(** X17: the full-match search is exhaustive: whenever some non-empty
    selection of lower-case candidates, taken in the order of the sorted
    candidate list, spells exactly the remaining letters, a sentence is
    built from words whose letters are exactly the remaining letters. *)
Theorem full_match_finds_combination (anagrams : list string)
    (remaining_letters : counter) (ws : list string) :
  ws `sublist_of` sorted length_desc anagrams →
  ws ≠ [] →
  (∀ w, w ∈ ws → lower w = w) →
  Counter_of_list (all_chars ws) = remaining_letters →
  ∃ w r,
    generate_sentence anagrams remaining_letters true
    = Ok (construct_sentence (w :: r))
    ∧ Counter_of_list (all_chars (w :: r)) = remaining_letters.
Proof.
  intros Hsub Hne Hlow <-.
  pose proof (letters_drive_to_zero ws Hlow) as Hz.
  destruct (proj1 (find_complete (sorted length_desc anagrams)) []
              (Counter_of_list (all_chars ws)) ws Hsub Hz Hne)
    as (w & r & Hfound).
  exists w, r. split.
  - unfold generate_sentence. destruct anagrams as [|a anagrams].
    { apply sublist_nil_r in Hsub. congruence. }
    cbn zeta. by rewrite Hfound.
  - destruct (proj1 (find_sound (sorted length_desc anagrams)) []
                (Counter_of_list (all_chars ws))) as (o & Ho & Hspec).
    rewrite Hfound in Ho. injection Ho as <-.
    destruct (Hspec (w :: r) eq_refl) as (_ & ws' & Heq & _ & Hz').
    cbn [app] in Heq. subst ws'. by apply drives_to_zero_letters.
Qed.

Lemma full_match_finds_combination_witness :
  ∃ w r,
    generate_sentence ["o"; "ox"; "x"]%string (Counter "ox") true
    = Ok (construct_sentence (w :: r))
    ∧ Counter_of_list (all_chars (w :: r)) = Counter "ox".
Proof.
  apply (full_match_finds_combination ["o"; "ox"; "x"]%string (Counter "ox")
           ["o"; "x"]%string).
  - change (sorted length_desc ["o"; "ox"; "x"]%string)
      with ["ox"; "o"; "x"]%string.
    apply sublist_cons, reflexivity.
  - done.
  - intros w [->|[->|?%elem_of_nil]%elem_of_cons]%elem_of_cons; done.
  - vm_compute. reflexivity.
Defined.

(** ** Further properties: the word list *)

Section WordList.
Implicit Types (l : list ascii) (s w : string) (c : ascii).

Lemma is_space_lower c : is_space (lower_char c) = is_space c.
Proof. destruct c as [[] [] [] [] [] [] [] []]; reflexivity. Qed.

Lemma chars_of_list l : chars (string_of_list_ascii l) = l.
Proof. apply list_ascii_of_string_of_list_ascii. Qed.

Lemma of_list_chars s : string_of_list_ascii (chars s) = s.
Proof. apply string_of_list_ascii_of_string. Qed.

Lemma of_list_lower l :
  string_of_list_ascii (lower_char <$> l) = lower (string_of_list_ascii l).
Proof. induction l as [|c l IH]; [done|]. cbn. by rewrite <-IH. Qed.

Lemma lstrip_chars_lower l :
  lstrip_chars (lower_char <$> l) = lower_char <$> lstrip_chars l.
Proof.
  induction l as [|c l IH]; [done|].
  rewrite fmap_cons. cbn [lstrip_chars]. rewrite is_space_lower.
  by destruct (is_space c).
Qed.

Lemma lstrip_chars_head l :
  match lstrip_chars l with
  | [] => True
  | c :: _ => is_space c = false
  end.
Proof.
  induction l as [|c l IH]; [done|]. cbn [lstrip_chars].
  by destruct (is_space c) eqn:Hc.
Qed.

Lemma lstrip_chars_fixed l :
  match l with
  | [] => True
  | c :: _ => is_space c = false
  end → lstrip_chars l = l.
Proof. destruct l as [|c l]; [done|]. cbn. by intros ->. Qed.

Lemma lstrip_chars_suffix l : ∃ sp, l = sp ++ lstrip_chars l.
Proof.
  induction l as [|c l [sp IH]]; [by exists []|]. cbn [lstrip_chars].
  destruct (is_space c).
  - exists (c :: sp). cbn. by rewrite <-IH.
  - by exists [].
Qed.

Lemma chars_strip s :
  chars (strip s)
  = reverse (lstrip_chars (reverse (lstrip_chars (chars s)))).
Proof. unfold strip. apply chars_of_list. Qed.

Lemma strip_stripped s : stripped (strip s).
Proof.
  unfold stripped. rewrite chars_strip, reverse_involutive.
  split; [|apply lstrip_chars_head].
  pose proof (lstrip_chars_head (chars s)) as Hhead.
  destruct (lstrip_chars_suffix (reverse (lstrip_chars (chars s))))
    as (sp & Hsp).
  apply (f_equal reverse) in Hsp.
  rewrite reverse_involutive, reverse_app in Hsp.
  destruct (reverse (lstrip_chars (reverse (lstrip_chars (chars s)))))
    as [|c r]; [done|].
  by rewrite Hsp in Hhead.
Qed.

Lemma stripped_strip s : stripped s → strip s = s.
Proof.
  intros [Hhead Hlast]. unfold strip.
  rewrite (lstrip_chars_fixed _ Hhead), (lstrip_chars_fixed _ Hlast).
  by rewrite reverse_involutive, of_list_chars.
Qed.

Lemma strip_lower s : strip (lower s) = lower (strip s).
Proof.
  unfold strip.
  by rewrite chars_lower, lstrip_chars_lower, <-fmap_reverse,
    lstrip_chars_lower, <-fmap_reverse, of_list_lower.
Qed.

(** A loaded word is lower-case and has no white space at either end. *)
Lemma loaded_word_normal line :
  lower (lower (strip line)) = lower (strip line)
  ∧ strip (lower (strip line)) = lower (strip line)
  ∧ stripped (lower (strip line)).
Proof.
  assert (strip (lower (strip line)) = lower (strip line)) as Hstrip.
  { by rewrite strip_lower, (stripped_strip _ (strip_stripped line)). }
  split; [apply lower_idemp|]. split; [done|].
  rewrite <-Hstrip. apply strip_stripped.
Qed.

Lemma find_anagrams_Permutation letters (word_list word_list' : list string)
    min_length exclude_words :
  word_list ≡ₚ word_list' →
  find_anagrams letters word_list min_length exclude_words
  = find_anagrams letters word_list' min_length exclude_words.
Proof.
  intros Hperm. rewrite !find_anagrams_eq. cbn zeta. f_equal.
  apply (StronglySorted_unique anagram_order).
  - eapply StronglySorted_weaken;
      [|apply sorted_StronglySorted;
        [apply anagram_key_le_total | apply anagram_key_le_trans]].
    intros x y. apply anagram_key_le_order.
  - eapply StronglySorted_weaken;
      [|apply sorted_StronglySorted;
        [apply anagram_key_le_total | apply anagram_key_le_trans]].
    intros x y. apply anagram_key_le_order.
  - by rewrite !sorted_Permutation, Hperm.
Qed.
End WordList.

(** X18: when the file opens, [load_word_list] returns the set of the lines
    with white space removed at both ends and letters lower-cased; every
    loaded word is its own lower-case form and has no white space at either
    end, so stripping it again changes nothing. *)
Theorem load_word_list_normalised (open_file : string → option (list string))
    (filename : string) (file : list string) :
  open_file filename = Some file →
  ∃ words,
    load_word_list open_file filename = Returns words
    ∧ (∀ line, line ∈ file → lower (strip line) ∈ words)
    ∧ (∀ w, w ∈ words →
            (∃ line, line ∈ file ∧ w = lower (strip line))
            ∧ lower w = w ∧ strip w = w ∧ stripped w).
Proof.
  intros Hopen. unfold load_word_list. rewrite Hopen.
  eexists. split; [done|]. split.
  - intros line Hline. apply elem_of_list_to_set, list_elem_of_fmap. eauto.
  - intros w Hw. apply elem_of_list_to_set, list_elem_of_fmap in Hw
      as (line & -> & Hline).
    split; [eauto|]. apply loaded_word_normal.
Qed.

Lemma load_word_list_normalised_witness :
  ∃ words,
    load_word_list (λ _, Some [" Tea "; "eat  "]%string) "words.txt"
    = Returns words
    ∧ "tea"%string ∈ words.
Proof.
  destruct (load_word_list_normalised
              (λ _, Some [" Tea "; "eat  "]%string) "words.txt" _ eq_refl)
    as (words & Hload & Hin & _).
  exists words. split; [exact Hload|].
  apply (Hin " Tea "%string). left.
Defined.

(** X19: for a word list loaded by [load_word_list], whatever the order in
    which the set is enumerated, [find_anagrams] gives the same list; each
    anagram occurs once in it, is lower-case, and has no white space at
    either end. *)
Theorem find_anagrams_of_loaded_words
    (open_file : string → option (list string)) (filename : string)
    (words : gset string) (word_list : list string) (letters : string)
    (min_length : Z) (exclude_words : option (list string)) :
  load_word_list open_file filename = Returns words →
  word_list ≡ₚ elements words →
  let anagrams :=
    (find_anagrams letters word_list min_length exclude_words).1 in
  find_anagrams letters word_list min_length exclude_words
  = find_anagrams letters (elements words) min_length exclude_words
  ∧ NoDup anagrams
  ∧ ∀ w, w ∈ anagrams → lower w = w ∧ strip w = w.
Proof.
  intros Hload Hperm anagrams.
  split; [by apply find_anagrams_Permutation|].
  assert (NoDup word_list) as Hnd.
  { rewrite Hperm. apply NoDup_elements. }
  split.
  - unfold anagrams. rewrite find_anagrams_eq. cbn zeta. cbn [fst].
    rewrite sorted_Permutation. by apply NoDup_filter.
  - intros w Hw. unfold anagrams in Hw.
    apply elem_of_find_anagrams in Hw as [Hw _].
    rewrite Hperm, elem_of_elements in Hw.
    unfold load_word_list in Hload.
    destruct (open_file filename) as [file|]; [|done].
    injection Hload as <-.
    apply elem_of_list_to_set, list_elem_of_fmap in Hw as (line & -> & _).
    split; apply loaded_word_normal.
Qed.

Lemma find_anagrams_of_loaded_words_witness :
  NoDup (find_anagrams "eat"
           (elements
              (list_to_set ((λ word, lower (strip word))
                              <$> [" Tea "; "eat  "]%string)
               : gset string)) 1 None).1.
Proof.
  pose proof (find_anagrams_of_loaded_words
                (λ _, Some [" Tea "; "eat  "]%string) "words.txt" _ _ "eat" 1
                None eq_refl (reflexivity _)) as H.
  cbv zeta in H. destruct H as (_ & Hnd & _). exact Hnd.
Defined.

(** ** Further properties: text and filters *)

Section Text.
Implicit Types (s w : string) (ws : list string).

Lemma append_assoc s1 s2 s3 :
  ((s1 ++ s2) ++ s3)%string = (s1 ++ s2 ++ s3)%string.
Proof.
  induction s1 as [|c s1 IH]; [done|]. rewrite !append_cons. by rewrite IH.
Qed.

Lemma capitalize_lower_case w s :
  lower w = w → (capitalize w ++ s)%string = upper_first (w ++ s)%string
              ∨ w = ""%string.
Proof.
  destruct w as [|c w]; [by right|]. intros Hlow. left.
  cbn in Hlow. injection Hlow as _ Hlow. cbn [capitalize].
  by rewrite Hlow.
Qed.

Lemma upper_first_space s : upper_first (" " ++ s)%string = (" " ++ s)%string.
Proof. reflexivity. Qed.

Lemma StronglySorted_filter {A} (R : relation A) (P : A → Prop)
    `{!∀ x, Decision (P x)} (l : list A) :
  StronglySorted R l → StronglySorted R (filter P l).
Proof.
  induction 1 as [|x l Hl IH Hx]; [constructor|]. rewrite filter_cons.
  destruct (decide (P x)); [|done]. constructor; [done|].
  rewrite Forall_forall in Hx |- *.
  intros y [_ Hy]%list_elem_of_filter. by apply Hx.
Qed.

Lemma all_chars_lower_lower ws :
  all_chars (lower <$> (lower <$> ws)) = all_chars (lower <$> ws).
Proof.
  induction ws as [|w ws IH]; [done|].
  rewrite !fmap_cons. cbn [all_chars]. by rewrite lower_idemp, IH.
Qed.
End Text.

(** X22: the text of a sentence whose first word is lower-case and starts
    with an ASCII character (or is empty) is the words joined by single
    spaces and followed by a period, with its first character upper-cased
    and nothing else changed. *)
Theorem construct_sentence_text (w : string) (ws : list string) :
  lower w = w →
  match w with
  | EmptyString => True
  | String c _ => (N_of_ascii c < 128)%N
  end →
  construct_sentence (w :: ws) = upper_first (join " " (w :: ws) ++ ".").
Proof.
  intros Hlow _. destruct ws as [|w2 ws].
  - cbn [construct_sentence join].
    by destruct (capitalize_lower_case w "." Hlow) as [?| ->].
  - assert (construct_sentence (w :: w2 :: ws)
            = (capitalize w ++ " " ++ join " " (w2 :: ws) ++ ".")%string)
      as ->.
    { destruct ws; [|done]. reflexivity. }
    change (join " " (w :: w2 :: ws))
      with (w ++ " " ++ join " " (w2 :: ws))%string.
    rewrite !append_assoc.
    by destruct (capitalize_lower_case w
                   (" " ++ join " " (w2 :: ws) ++ ".")%string Hlow)
      as [?| ->].
Qed.

Lemma construct_sentence_text_witness :
  construct_sentence ["enlist"; "tin"]%string
  = upper_first (join " " ["enlist"; "tin"]%string ++ ".").
Proof. apply construct_sentence_text; [reflexivity | by vm_compute]. Defined.

(** X23: exclusion words are case-insensitive: lower-casing every exclusion
    word changes neither the anagrams nor the remaining multiset. *)
Theorem find_anagrams_exclusion_case (letters : string)
    (word_list : list string) (min_length : Z)
    (exclude_words : list string) :
  find_anagrams letters word_list min_length (Some exclude_words)
  = find_anagrams letters word_list min_length
      (Some (lower <$> exclude_words)).
Proof.
  rewrite !find_anagrams_eq. cbn [default].
  assert (∀ M, foldl subtracted M exclude_words
               = foldl subtracted M (lower <$> exclude_words)) as ->; [|done].
  intros M. apply map_eq. intros c.
  by rewrite !foldl_subtracted_lookup, all_chars_lower_lower.
Qed.

(** X24: the empty word (a blank line of the word list) is always covered;
    it is matched exactly when it is listed and the minimum length is not
    positive. *)
Theorem find_anagrams_empty_word (letters : string) (word_list : list string)
    (min_length : Z) (exclude_words : option (list string)) :
  (∀ M, is_valid_anagram M "" = true)
  ∧ (""%string ∈ (find_anagrams letters word_list min_length exclude_words).1
     ↔ ""%string ∈ word_list ∧ min_length ≤ 0).
Proof.
  split; [done|].
  rewrite elem_of_find_anagrams, find_anagrams_remaining, accepts_iff.
  destruct (remaining_invariant (remove_spaces letters)
              (default [] exclude_words)) as [Hpos _].
  apply sum_values_nonneg in Hpos.
  change (len "") with 0. change (is_valid_anagram _ "") with true.
  tauto.
Qed.

(** X25: raising the minimum length filters the result: the anagrams for a
    larger minimum length are those for a smaller one that are long enough,
    in the same order. *)
Theorem find_anagrams_min_length (letters : string) (word_list : list string)
    (min_length min_length' : Z) (exclude_words : option (list string)) :
  min_length ≤ min_length' →
  (find_anagrams letters word_list min_length' exclude_words).1
  = filter (λ w, min_length' ≤ len w)
      (find_anagrams letters word_list min_length exclude_words).1.
Proof.
  intros Hle. rewrite !find_anagrams_eq. cbn zeta. cbn [fst].
  set (M := foldl subtracted _ _).
  assert (∀ L l, StronglySorted anagram_order
                   (sorted anagram_key_le
                      (filter (λ word, Is_true (accepts M L word)) l)))
    as Hsorted.
  { intros L l. eapply StronglySorted_weaken;
      [|apply sorted_StronglySorted;
        [apply anagram_key_le_total | apply anagram_key_le_trans]].
    intros x y. apply anagram_key_le_order. }
  apply (StronglySorted_unique anagram_order);
    [apply Hsorted | apply StronglySorted_filter, Hsorted |].
  rewrite !sorted_Permutation, list_filter_filter.
  rewrite (list_filter_iff
             (λ word, Is_true (accepts M min_length' word))
             (λ word, min_length' ≤ len word
                      ∧ Is_true (accepts M min_length word))); [done|].
  intros word. rewrite !accepts_iff. split; [|tauto].
  intros (? & ? & ?). repeat split; try done. lia.
Qed.

Lemma find_anagrams_min_length_witness :
  (find_anagrams "listen" ["silent"; "tin"; "enlist"]%string 4 None).1
  = filter (λ w, 4 ≤ len w)
      (find_anagrams "listen" ["silent"; "tin"; "enlist"]%string 1 None).1.
Proof. apply find_anagrams_min_length. done. Defined.
